(** * tagfmt: the orchestrator of [gofmt.go], embedded in Rocq

    [processFile] and its helpers ([selectInit], [structSelectInit], [diff],
    [replaceTempFilename], [writeTempFile], [backupFile]) are translated
    from [src/gofmt.go].  Go values are modelled as follows:

    - a Go [string] and a [[]byte] are a [string] (a list of 8-bit [ascii]);
    - a Go [error] is a value of the inductive type [error]; [nil] is the
      absence of one ([option error]), and a [(T, error)] result is a sum;
    - the global flag variables are the record [Flags], read-only in a run;
    - the package variables [fieldFilter] and [structFieldSelect] and the
      file system are the mutable [World];
    - the packages the file imports ([regexp], [go/parser], [go/printer],
      [os], [io/ioutil], [os/exec], [path/filepath]) and the four passes,
      whose files are not part of [gofmt.go], are the class [Runtime];
    - every call that can be observed from outside is logged as an [Event],
      in the order in which the code makes it. *)

From Stdlib Require Import ZArith Ascii List Lia Bool.
From stdpp Require Import base option list strings gmap.

Local Open Scope Z_scope.

(** ** Go's string helpers used by [processFile] *)

Module GoLib.

(** The double-quote byte, by its code. *)
Definition dquote : ascii := ascii_of_nat 34.
Definition newline : ascii := ascii_of_nat 10.
Definition tab : ascii := ascii_of_nat 9.

Definition bytes (l : list nat) : string :=
  String.string_of_list_ascii (map ascii_of_nat l).

(** [strings.Split(s, sep)] for a one-byte separator, which is what both
    call sites pass (["|"] and ["="]): the pieces between the occurrences
    of [sep], in order; never the empty list. *)
Fixpoint strings_Split (s : string) (sep : ascii) : list string :=
  match s with
  | EmptyString => [EmptyString]
  | String c r =>
      if Ascii.eqb c sep then EmptyString :: strings_Split r sep
      else match strings_Split r sep with
           | [] => [String c EmptyString]
           | p :: ps => String c p :: ps
           end
  end.

(** The text before and after the first [sep] of [s], if there is one. *)
Fixpoint cut (s : string) (sep : ascii) : option (string * string) :=
  match s with
  | EmptyString => None
  | String c r =>
      if Ascii.eqb c sep then Some (EmptyString, r)
      else match cut r sep with
           | Some (a, b) => Some (String c a, b)
           | None => None
           end
  end.

(** [bytes.SplitN(s, sep, n)] for [n >= 0] and a one-byte separator: at most
    [n] pieces, the last one being the unsplit remainder. *)
Fixpoint bytes_SplitN (s : string) (sep : ascii) (n : nat) : list string :=
  match n with
  | O => []
  | S O => [s]
  | S n' =>
      match cut s sep with
      | None => [s]
      | Some (a, b) => a :: bytes_SplitN b sep n'
      end
  end.

(** [bytes.Join(bs, sep)]. *)
Fixpoint bytes_Join (bs : list string) (sep : string) : string :=
  match bs with
  | [] => ""
  | [b] => b
  | b :: rest => b +:+ sep +:+ bytes_Join rest sep
  end.

(** The suffix of [s] starting at its last [c] (that byte included):
    [s[i:]] for [i := bytes.LastIndexByte(s, c)], or [None] when [i = -1]. *)
Fixpoint fromLastByte (s : string) (c : ascii) : option string :=
  match s with
  | EmptyString => None
  | String d r =>
      match fromLastByte r c with
      | Some t => Some t
      | None => if Ascii.eqb d c then Some s else None
      end
  end.

(** White space as [unicode.IsSpace] has it, in UTF-8: the six ASCII
    blanks, U+0085, U+00A0, U+1680, U+2000 to U+200A, U+2028, U+2029,
    U+202F, U+205F and U+3000.  A valid rune has one encoding only, so
    stripping these byte sequences is what decoding rune by rune does. *)
Definition spaceRunes : list (list nat) :=
  [ [9]; [10]; [11]; [12]; [13]; [32];
    [194; 133]; [194; 160]; [225; 154; 128];
    [226; 128; 128]; [226; 128; 129]; [226; 128; 130]; [226; 128; 131];
    [226; 128; 132]; [226; 128; 133]; [226; 128; 134]; [226; 128; 135];
    [226; 128; 136]; [226; 128; 137]; [226; 128; 138];
    [226; 128; 168]; [226; 128; 169]; [226; 128; 175];
    [226; 129; 159]; [227; 128; 128] ]%nat.

Fixpoint stripPrefix (p s : string) : option string :=
  match p, s with
  | EmptyString, _ => Some s
  | String a p', String b s' => if Ascii.eqb a b then stripPrefix p' s' else None
  | String _ _, EmptyString => None
  end.

Fixpoint stripAny (ps : list string) (s : string) : option string :=
  match ps with
  | [] => None
  | p :: rest =>
      match stripPrefix p s with
      | Some r => Some r
      | None => stripAny rest s
      end
  end.

Fixpoint trimWith (ps : list string) (fuel : nat) (s : string) : string :=
  match fuel with
  | O => s
  | S fuel' =>
      match stripAny ps s with
      | Some r => trimWith ps fuel' r
      | None => s
      end
  end.

Definition trimLeftSpace (s : string) : string :=
  trimWith (map bytes spaceRunes) (String.length s) s.

Definition trimRightSpace (s : string) : string :=
  String.rev (trimWith (map (fun l => bytes (rev l)) spaceRunes)
                (String.length s) (String.rev s)).

(** [strings.TrimSpace(s)]: [s] without its leading and trailing white
    space.  Every strip removes at least one byte, so the length of the
    string is fuel enough. *)
Definition strings_TrimSpace (s : string) : string :=
  trimRightSpace (trimLeftSpace s).

(** [strconv.NumError.Err]: the two ways [strconv.Atoi] fails. *)
Inductive NumErr : Type :=
| ErrSyntax
| ErrRange.

Definition digit (c : ascii) : option Z :=
  let n := Z.of_nat (nat_of_ascii c) in
  if (48 <=? n) && (n <=? 57) then Some (n - 48) else None.

(** The digit loop of [strconv.ParseUint(s, 10, 64)]: a byte that is no
    digit is a syntax error, a value past [2^64 - 1] a range error,
    whichever the scan meets first. *)
Fixpoint parseUint (s : string) (acc : Z) : NumErr + Z :=
  match s with
  | EmptyString => inr acc
  | String c r =>
      match digit c with
      | None => inl ErrSyntax
      | Some d =>
          let acc' := acc * 10 + d in
          if 2 ^ 64 - 1 <? acc' then inl ErrRange else parseUint r acc'
      end
  end.

(** [strconv.Atoi(s)] with a 64-bit [int]: an optional sign, then at least
    one decimal digit and nothing else, the value within [int]'s range. *)
Definition strconv_Atoi (s : string) : NumErr + Z :=
  let '(neg, body) :=
    match s with
    | String c r =>
        if Ascii.eqb c "-" then (true, r)
        else if Ascii.eqb c "+" then (false, r)
        else (false, s)
    | EmptyString => (false, s)
    end in
  match body with
  | EmptyString => inl ErrSyntax
  | _ =>
      match parseUint body 0 with
      | inl e => inl e
      | inr un =>
          if neg then (if 2 ^ 63 <? un then inl ErrRange else inr (- un))
          else (if 2 ^ 63 <=? un then inl ErrRange else inr un)
      end
  end.

End GoLib.

Import GoLib.

(** ** Values of the orchestrator *)

(** A Go [error] value.  The orchestrator makes three of its own (lines
    189, 194 and 249 of [gofmt.go]) and [replaceTempFilename] one (line
    388); every other error comes out of a package or a pass and is passed
    on as it is. *)
Inductive error : Type :=
| ErrExternal (origin msg : string)
    (* an error value made outside [gofmt.go] *)
| ErrSortWeightFormat
    (* errors.New("tagSortWeight format error please check 'sw' arg") *)
| ErrSortWeightAtoi (num : string) (e : NumErr)
    (* the same text, then ": " and the NumError of Atoi(num) *)
| ErrComputingDiff (e : error)
    (* fmt.Errorf("computing diff: %s", err) *)
| ErrUnexpectedDiff (filename : string).
    (* fmt.Errorf("got unexpected diff for %s", filename) *)

(** The flag variables of lines 32 to 50, with their defaults. *)
Record Flags : Type := mkFlags {
  listFiles : bool;              (* -l, the variable [list] *)
  align : bool;                  (* -a *)
  write : bool;                  (* -w *)
  tagSort : bool;                (* -s *)
  tagSortOrder : string;         (* -so *)
  tagSortWeight : string;        (* -sw *)
  doDiff : bool;                 (* -d *)
  allErrors : bool;              (* -e *)
  fill : string;                 (* -f *)
  pattern : string;              (* -p *)
  inversePattern : string;       (* -P *)
  structPattern : string;        (* -sp *)
  inverseStructPattern : string  (* -sP *)
}.

Definition defaultFlags : Flags :=
  {| listFiles := false; align := true; write := false; tagSort := false;
     tagSortOrder := ""; tagSortWeight := ""; doDiff := false;
     allErrors := false; fill := ""; pattern := ".*"; inversePattern := "";
     structPattern := ".*"; inverseStructPattern := "" |}.

(** [initParserMode]: [parser.ParseComments] is bit 2, [parser.AllErrors]
    bit 5 of [parser.Mode]. *)
Definition initParserMode (fl : Flags) : Z :=
  if allErrors fl then Z.lor 4 32 else 4.

(** The four passes, by the dynamic type of the [Executor]. *)
Inductive Pass : Type :=
| Doctor
| Fill
| Sort
| Align.

Global Instance Pass_eq_dec : EqDecision Pass.
Proof. solve_decision. Defined.

(** A file of the file system: its permission bits and its bytes. *)
Record FileNode : Type := mkFile {
  mode : Z;
  content : string
}.

Abbreviation FS := (gmap string FileNode).

(** The state a run reads and writes: the two package-level filters (lines
    442 and 462), [nil] until a [selectInit] succeeds, the parser mode
    (line 76) and the files. *)
Record World : Type := mkWorld {
  fieldFilter : option (string -> bool);
  structFieldSelect : option (string -> bool);
  parserMode : Z;
  fsys : FS
}.

(** The interface [Executor] of lines 437 to 440.  A method reads the
    package variables, runs on the heap the executors share (the syntax
    tree of the file and what each pass keeps between its two steps) and
    returns an error or [nil]. *)
Record Executor (Store : Type) : Type := mkExecutor {
  Scan : World -> Store -> Store * option error;
  Execute : World -> Store -> Store * option error
}.
Arguments mkExecutor {Store} _ _.
Arguments Scan {Store} _ _ _.
Arguments Execute {Store} _ _ _.

(** The calls into the operating system, with their arguments. *)
Inductive OsCall : Type :=
| CallOpen (name : string)                       (* os.Open *)
| CallStat (name : string)                       (* File.Stat *)
| CallReadAll (name : string)                    (* ioutil.ReadAll of a file *)
| CallReadIn                                     (* ioutil.ReadAll of [in] *)
| CallTempFile (dir prefix : string)             (* ioutil.TempFile *)
| CallChmod (name : string) (perm : Z)           (* File.Chmod *)
| CallWrite (name data : string)                 (* File.Write *)
| CallClose (name : string)                      (* File.Close *)
| CallWriteFile (name data : string) (perm : Z)  (* ioutil.WriteFile *)
| CallRename (old new : string)                  (* os.Rename *)
| CallRemove (name : string)                     (* os.Remove *)
| CallOut (data : string).                       (* a write to [out] *)

(** What a run does that can be seen from outside, call by call. *)
Inductive Event : Type :=
| EvCompile (expr : string)                  (* regexp.Compile(expr) *)
| EvScan (p : Pass)                          (* Scan of an executor *)
| EvExecute (p : Pass)                       (* Execute of an executor *)
| EvOs (c : OsCall)
| EvStdout (data : string)                   (* fmt.Printf *)
| EvExec (cmd : string) (args : list string) (* exec.Command(..).CombinedOutput *).

(** ** What [gofmt.go] imports *)

(** The packages and the passes [processFile] calls.  A failure of the
    operating system is decided by [os_fails] from the state of the file
    system and the call; [os_torn] says what a failed write leaves in the
    file ([None]: the file is as it was). *)
Class Runtime (Store : Type) : Type := mkRuntime {
  Regexp : Type;
  regexp_Compile : string -> error + Regexp;
  regexp_MatchString : Regexp -> string -> bool;
  parser_ParseFile : string -> string -> Z -> error + Store;
  printer_Fprint : Store -> error + string;
  tagDoctor : Executor Store;
  newTagFill : string -> error + Executor Store;
  newTagSort : list string -> gmap string Z -> Executor Store;
  newTagFmt : Executor Store;
  runtime_GOOS : string;
  filepath_Dir : string -> string;
  filepath_Base : string -> string;
  filepath_ToSlash : string -> string;
  os_fails : FS -> OsCall -> option error;
  os_torn : FS -> OsCall -> option string;
  os_TempName : FS -> string -> string -> string;
  exec_CombinedOutput : FS -> string -> list string -> string * option error
}.

Definition set_fieldFilter (f : string -> bool) (w : World) : World :=
  {| fieldFilter := Some f; structFieldSelect := structFieldSelect w;
     parserMode := parserMode w; fsys := fsys w |}.

Definition set_structFieldSelect (f : string -> bool) (w : World) : World :=
  {| fieldFilter := fieldFilter w; structFieldSelect := Some f;
     parserMode := parserMode w; fsys := fsys w |}.

Definition set_fsys (fs : FS) (w : World) : World :=
  {| fieldFilter := fieldFilter w; structFieldSelect := structFieldSelect w;
     parserMode := parserMode w; fsys := fs |}.

(** ** The monad of the model: events, state and errors *)

(** A computation logs events, changes the world and yields an error or a
    value.  An error ends the enclosing function, as [return err] does. *)
Definition M (A : Type) : Type := World -> list Event * World * (error + A).

Definition ret {A} (a : A) : M A := fun w => ([], w, inr a).

Definition throw {A} (e : error) : M A := fun w => ([], w, inl e).

Definition bind {A B} (m : M A) (k : A -> M B) : M B :=
  fun w =>
    match m w with
    | (ev1, w1, inl e) => (ev1, w1, inl e)
    | (ev1, w1, inr a) =>
        match k a w1 with
        | (ev2, w2, r) => (ev1 ++ ev2, w2, r)
        end
    end.

Definition emit (ev : Event) : M unit := fun w => ([ev], w, inr tt).

Definition getWorld : M World := fun w => ([], w, inr w).

Definition modify (f : World -> World) : M unit := fun w => ([], f w, inr tt).

(** [m] with its error, if any, handed to the continuation instead of
    ending the function: [x, err := m(); ...]. *)
Definition attempt {A} (m : M A) : M (error + A) :=
  fun w => match m w with (ev, w', r) => (ev, w', inr r) end.

(** [defer d] around [m]: [d] runs when [m] returns, however it does; the
    result of [d] is dropped. *)
Definition deferring {A B} (d : M B) (m : M A) : M A :=
  fun w =>
    match m w with
    | (ev1, w1, r) =>
        match d w1 with
        | (ev2, w2, _) => (ev1 ++ ev2, w2, r)
        end
    end.

Definition liftResult {A} (r : error + A) : M A :=
  match r with
  | inl e => throw e
  | inr a => ret a
  end.

Declare Scope go_scope.
Delimit Scope go_scope with go.
Notation "'do' x <- m ; k" := (bind m (fun x => k))
  (at level 10, x pattern, m at level 100, k at level 200) : go_scope.
Notation "m ;; k" := (bind m (fun _ => k))
  (at level 100, k at level 200, right associativity) : go_scope.

Definition events {A} (r : list Event * World * (error + A)) : list Event := r.1.1.
Definition final {A} (r : list Event * World * (error + A)) : World := r.1.2.
Definition outcome {A} (r : list Event * World * (error + A)) : error + A := r.2.

(** ** Reading a trace *)

Definition isPass (ev : Event) : bool :=
  match ev with
  | EvScan _ | EvExecute _ => true
  | _ => false
  end.

(** A write to [out] or to the standard output. *)
Definition isOutput (ev : Event) : bool :=
  match ev with
  | EvOs (CallOut _) | EvStdout _ => true
  | _ => false
  end.

(** A run of the subprocess. *)
Definition isExec (ev : Event) : bool :=
  match ev with
  | EvExec _ _ => true
  | _ => false
  end.

(** The runs of the subprocess in a trace, in order. *)
Definition execs (t : list Event) : list Event := List.filter isExec t.

(** The calls of the passes in a trace, in order. *)
Definition passEvents (t : list Event) : list Event := List.filter isPass t.

(** The bytes handed to [out], write by write. *)
Definition written (t : list Event) : list string :=
  omap (fun ev => match ev with EvOs (CallOut d) => Some d | _ => None end) t.

(** The patterns handed to [regexp.Compile], in order. *)
Definition compiled (t : list Event) : list string :=
  omap (fun ev => match ev with EvCompile e => Some e | _ => None end) t.

(** Every [Scan] of the passes [ps] in order, then every [Execute]. *)
Definition batched (ps : list Pass) : list Event :=
  map EvScan ps ++ map EvExecute ps.

(** Pass by pass, the [Scan] and at once the [Execute]. *)
Definition interleaved (ps : list Pass) : list Event :=
  flat_map (fun p => [EvScan p; EvExecute p]) ps.

(** All the events of a computation satisfy [P], from any world. *)
Definition Emits {A} (P : Event -> Prop) (m : M A) : Prop :=
  forall w, Forall P (events (m w)).

(** A computation that leaves the files as they are. *)
Definition KeepsFiles {A} (m : M A) : Prop :=
  forall w, fsys (final (m w)) = fsys w.

Local Open Scope go_scope.

(** ** The functions of [gofmt.go] *)

Section Orchestrator.
Context {Store : Type} `{RT : Runtime Store}.

(** *** Calls into the operating system *)

Definition errNotExist : error := ErrExternal "os" "file does not exist".
Definition errExist : error := ErrExternal "os" "file exists".

(** One call [c]: it fails when [os_fails] says so, leaving [torn] behind,
    and else does [run] on the files. *)
Definition syscall {A} (c : OsCall) (run : FS -> error + (FS * A))
    (torn : FS -> FS) : M A :=
  fun w =>
    let fs := fsys w in
    match os_fails fs c with
    | Some e => ([EvOs c], set_fsys (torn fs) w, inl e)
    | None =>
        match run fs with
        | inl e => ([EvOs c], w, inl e)
        | inr (fs', a) => ([EvOs c], set_fsys fs' w, inr a)
        end
    end.

Definition os_Open (name : string) : M unit :=
  syscall (CallOpen name)
    (fun fs => match fs !! name with
               | Some _ => inr (fs, tt)
               | None => inl errNotExist
               end) id.

Definition File_Stat (name : string) : M Z :=
  syscall (CallStat name)
    (fun fs => match fs !! name with
               | Some f => inr (fs, mode f)
               | None => inl errNotExist
               end) id.

Definition File_ReadAll (name : string) : M string :=
  syscall (CallReadAll name)
    (fun fs => match fs !! name with
               | Some f => inr (fs, content f)
               | None => inl errNotExist
               end) id.

(** [ioutil.TempFile(dir, prefix)] creates a file that did not exist,
    empty and with mode 0600, under the name the system picks. *)
Definition ioutil_TempFile (dir prefix : string) : M string :=
  syscall (CallTempFile dir prefix)
    (fun fs =>
       let name := os_TempName fs dir prefix in
       match fs !! name with
       | Some _ => inl errExist
       | None => inr (<[name := mkFile 384 ""]> fs, name)
       end) id.

Definition File_Chmod (name : string) (perm : Z) : M unit :=
  syscall (CallChmod name perm)
    (fun fs => match fs !! name with
               | Some f => inr (<[name := mkFile perm (content f)]> fs, tt)
               | None => inl errNotExist
               end) id.

Definition File_Write (name data : string) : M unit :=
  syscall (CallWrite name data)
    (fun fs => match fs !! name with
               | Some f => inr (<[name := mkFile (mode f) (content f +:+ data)]> fs, tt)
               | None => inl errNotExist
               end)
    (fun fs => match os_torn fs (CallWrite name data), fs !! name with
               | Some d, Some f => <[name := mkFile (mode f) d]> fs
               | _, _ => fs
               end).

Definition File_Close (name : string) : M unit :=
  syscall (CallClose name) (fun fs => inr (fs, tt)) id.

(** [ioutil.WriteFile(name, data, perm)] truncates the file, or creates it
    with [perm], and writes [data]. *)
Definition ioutil_WriteFile (name data : string) (perm : Z) : M unit :=
  let node fs d := mkFile (from_option mode perm (fs !! name)) d in
  syscall (CallWriteFile name data perm)
    (fun fs => inr (<[name := node fs data]> fs, tt))
    (fun fs => match os_torn fs (CallWriteFile name data perm) with
               | Some d => <[name := node fs d]> fs
               | None => fs
               end).

Definition os_Rename (old new : string) : M unit :=
  syscall (CallRename old new)
    (fun fs => match fs !! old with
               | Some f => inr (<[new := f]> (delete old fs), tt)
               | None => inl errNotExist
               end) id.

Definition os_Remove (name : string) : M unit :=
  syscall (CallRemove name)
    (fun fs => match fs !! name with
               | Some _ => inr (delete name fs, tt)
               | None => inl errNotExist
               end) id.

(** A write to the writer [out] of [processFile]. *)
Definition out_Write (data : string) : M unit :=
  syscall (CallOut data) (fun fs => inr (fs, tt)) id.

Definition exec_Command (cmd : string) (args : list string) : M (string * option error) :=
  fun w => ([EvExec cmd args], w, inr (exec_CombinedOutput (fsys w) cmd args)).

(** *** Lines 444 to 480: the two selectors *)

Definition selectInit (expr : string) (inverse : bool) : M unit :=
  emit (EvCompile expr) ;;
  do selRule <- liftResult (regexp_Compile expr) ;
  if inverse then
    modify (set_fieldFilter (fun s => negb (regexp_MatchString selRule s)))
  else
    modify (set_fieldFilter (fun s => regexp_MatchString selRule s)).

Definition structSelectInit (expr : string) (inverse : bool) : M unit :=
  emit (EvCompile expr) ;;
  do selRule <- liftResult (regexp_Compile expr) ;
  if inverse then
    modify (set_structFieldSelect (fun s => negb (regexp_MatchString selRule s)))
  else
    modify (set_structFieldSelect (fun s => regexp_MatchString selRule s)).

(** *** Lines 333 to 403: the diff *)

Definition firstError {A B} (r : error + A) (r1 : error + B) : option error :=
  match r, r1 with
  | inl e, _ => Some e
  | inr _, inl e1 => Some e1
  | inr _, inr _ => None
  end.

Definition writeTempFile (dir prefix data : string) : M string :=
  do file <- ioutil_TempFile dir prefix ;
  do r <- attempt (File_Write file data) ;
  do r1 <- attempt (File_Close file) ;
  match firstError r r1 with
  | Some err => attempt (os_Remove file) ;; throw err
  | None => ret file
  end.

Definition replaceTempFilename (diff filename : string) : error + string :=
  let bs := bytes_SplitN diff newline 3 in
  if (length bs <? 3)%nat then inl (ErrUnexpectedDiff filename)
  else
    let t0 := default "" (fromLastByte (nth 0 bs "") tab) in
    let t1 := default "" (fromLastByte (nth 1 bs "") tab) in
    let f := filepath_ToSlash filename in
    let bs := <[0%nat := "--- " +:+ (f +:+ ".orig") +:+ t0]> bs in
    let bs := <[1%nat := "+++ " +:+ f +:+ t1]> bs in
    inr (bytes_Join bs (String newline "")).

(** The variable [cmd] of lines 362 to 365. *)
Definition diffCmd : string :=
  if decide (runtime_GOOS = "plan9") then "/bin/ape/diff" else "diff".

Definition diff (b1 b2 filename : string) : M string :=
  do f1 <- writeTempFile "" "gofmt" b1 ;
  deferring (os_Remove f1) (
    do f2 <- writeTempFile "" "gofmt" b2 ;
    deferring (os_Remove f2) (
      do (data, err) <- exec_Command diffCmd ["-u"; f1; f2] ;
      if (0 <? String.length data)%nat then
        liftResult (replaceTempFilename data filename)
      else
        match err with
        | Some e => throw e
        | None => ret data
        end)).

(** *** Lines 405 to 433: the backup *)

Definition chmodSupported : bool :=
  if decide (runtime_GOOS = "windows") then false else true.

Definition backupFile (filename data : string) (perm : Z) : M string :=
  do bakname <- ioutil_TempFile (filepath_Dir filename) (filepath_Base filename) ;
  (if chmodSupported then
     do r <- attempt (File_Chmod bakname perm) ;
     match r with
     | inl err =>
         attempt (File_Close bakname) ;; attempt (os_Remove bakname) ;; throw err
     | inr _ => ret tt
     end
   else ret tt) ;;
  do r <- attempt (File_Write bakname data) ;
  do r1 <- attempt (File_Close bakname) ;
  match firstError r r1 with
  | Some err => throw err
  | None => ret bakname
  end.

(** *** Lines 115 to 261: [processFile] *)

(** The loop of lines 182 to 197 over the pieces of the [-sw] argument. *)
Fixpoint parseWeights (segs : list string) (weights : gmap string Z) :
    error + gmap string Z :=
  match segs with
  | [] => inr weights
  | weightStr :: rest =>
      let weightStr := strings_TrimSpace weightStr in
      if decide (strings_TrimSpace weightStr = "") then parseWeights rest weights
      else
        let keyVals := strings_Split weightStr "=" in
        if decide (length keyVals ≠ 2%nat) then inl ErrSortWeightFormat
        else
          let key := strings_TrimSpace (nth 0 keyVals "") in
          let num := strings_TrimSpace (nth 1 keyVals "") in
          match strconv_Atoi num with
          | inl err => inl (ErrSortWeightAtoi num err)
          | inr val => parseWeights rest (<[key := val]> weights)
          end
  end.

(** Lines 164 to 202: the list [executor].  Each element is kept with the
    pass it is an instance of, which the code knows from the constructor. *)
Definition buildExecutors (fl : Flags) : error + list (Pass * Executor Store) :=
  let executor := [(Doctor, tagDoctor)] in
  match
    (if decide (fill fl ≠ "") then
       match newTagFill (fill fl) with
       | inl err => inl err
       | inr filler => inr (executor ++ [(Fill, filler)])
       end
     else inr executor)
  with
  | inl err => inl err
  | inr executor =>
      match
        (if tagSort fl then
           match parseWeights (strings_Split (tagSortWeight fl) "|") ∅ with
           | inl err => inl err
           | inr weights =>
               inr (executor ++
                    [(Sort, newTagSort (strings_Split (tagSortOrder fl) "|") weights)])
           end
         else inr executor)
      with
      | inl err => inl err
      | inr executor =>
          inr (if align fl then executor ++ [(Align, newTagFmt)] else executor)
      end
  end.

(** Lines 203 to 208. *)
Fixpoint scanAll (executor : list (Pass * Executor Store)) (file : Store) : M Store :=
  match executor with
  | [] => ret file
  | (p, scan) :: rest =>
      emit (EvScan p) ;;
      do w <- getWorld ;
      match Scan scan w file with
      | (_, Some err) => throw err
      | (file', None) => scanAll rest file'
      end
  end.

(** Lines 209 to 214. *)
Fixpoint executeAll (executor : list (Pass * Executor Store)) (file : Store) : M Store :=
  match executor with
  | [] => ret file
  | (p, exe) :: rest =>
      emit (EvExecute p) ;;
      do w <- getWorld ;
      match Execute exe w file with
      | (_, Some err) => throw err
      | (file', None) => executeAll rest file'
      end
  end.

(** Lines 230 to 245: the branch of [-w]. *)
Definition overwrite (filename src res : string) (perm : Z) : M unit :=
  do bakname <- backupFile (filename +:+ ".") src perm ;
  do r <- attempt (ioutil_WriteFile filename res perm) ;
  match r with
  | inl err => attempt (os_Rename bakname filename) ;; throw err
  | inr _ => os_Remove bakname
  end.

(** Lines 246 to 253: the branch of [-d]. *)
Definition showDiff (filename src res : string) : M unit :=
  do r <- attempt (diff src res filename) ;
  match r with
  | inl err => throw (ErrComputingDiff err)
  | inr data =>
      emit (EvStdout ("diff -u " +:+ filepath_ToSlash (filename +:+ ".orig") +:+ " "
                      +:+ filepath_ToSlash filename +:+ String newline "")) ;;
      attempt (out_Write data) ;; ret tt
  end.

(** Lines 225 to 260: what is done with the printed file [res]. *)
Definition emitResult (fl : Flags) (filename src res : string) (perm : Z) : M unit :=
  (if negb (String.eqb src res) then
     (if listFiles fl then
        attempt (out_Write (filename +:+ String newline "")) ;; ret tt
      else ret tt) ;;
     (if write fl then overwrite filename src res perm else ret tt) ;;
     (if doDiff fl then showDiff filename src res else ret tt)
   else ret tt) ;;
  if negb (listFiles fl) && negb (write fl) && negb (doDiff fl) then out_Write res
  else ret tt.

(** Lines 130 to 152. *)
Definition initSelectors (fl : Flags) : M unit :=
  (if decide (inversePattern fl ≠ "") then selectInit (inversePattern fl) true
   else selectInit (pattern fl) false) ;;
  (if decide (inverseStructPattern fl ≠ "") then
     structSelectInit (inverseStructPattern fl) true
   else structSelectInit (structPattern fl) false).

(** Lines 130 to 202: the selectors, the source, its tree and the list of
    executors; nothing of this runs a pass. *)
Definition setup (fl : Flags) (filename : string) (readAll : M string) :
    M (string * Store * list (Pass * Executor Store)) :=
  initSelectors fl ;;
  do src <- readAll ;
  do w <- getWorld ;
  do file <- liftResult (parser_ParseFile filename src (parserMode w)) ;
  do executor <- liftResult (buildExecutors fl) ;
  ret (src, file, executor).

(** Lines 203 to 214: every [Scan], then every [Execute]. *)
Definition runPasses (executor : list (Pass * Executor Store)) (file : Store) : M Store :=
  do file <- scanAll executor file ;
  executeAll executor file.

(** Lines 130 to 223: everything before the result is looked at.  The
    value is the source, the heap after the passes and the printed text. *)
Definition prepare (fl : Flags) (filename : string) (readAll : M string) :
    M (string * Store * string) :=
  do (src, file, executor) <- setup fl filename readAll ;
  do file <- runPasses executor file ;
  do res <- liftResult (printer_Fprint file) ;
  ret (src, file, res).

(** Lines 130 to 260, after [in] and [perm] are set. *)
Definition processBody (fl : Flags) (filename : string) (readAll : M string)
    (perm : Z) : M unit :=
  do (src, _, res) <- prepare fl filename readAll ;
  emitResult fl filename src res perm.

(** [ioutil.ReadAll(in)] for the reader the caller passed. *)
Definition readIn (r : error + string) : M string :=
  emit (EvOs CallReadIn) ;; liftResult r.

(** [processFile(filename, in, out, stdin)].  [inp] is [None] for a nil
    [in], and else what [ioutil.ReadAll(in)] returns; the writes to [out]
    are the events [EvOs (CallOut _)]. *)
Definition processFile (fl : Flags) (filename : string)
    (inp : option (error + string)) (stdin : bool) : M unit :=
  match inp with
  | None =>
      os_Open filename ;;
      deferring (File_Close filename) (
        do perm <- File_Stat filename ;
        processBody fl filename (File_ReadAll filename) perm)
  | Some r => processBody fl filename (readIn r) 420
  end.

End Orchestrator.

(** ** Vocabulary of the statements *)

(** The passes a configuration enables, in the order of the appends of
    lines 166 to 202. *)
Definition enabledPasses (fl : Flags) : list Pass :=
  [Doctor]
  ++ (if decide (fill fl ≠ "") then [Fill] else [])
  ++ (if tagSort fl then [Sort] else [])
  ++ (if align fl then [Align] else []).

(** The pattern a run hands to [selectInit], and to [structSelectInit]. *)
Definition fieldPattern (fl : Flags) : string :=
  if decide (inversePattern fl ≠ "") then inversePattern fl else pattern fl.

Definition structPatternOf (fl : Flags) : string :=
  if decide (inverseStructPattern fl ≠ "") then inverseStructPattern fl
  else structPattern fl.

(** The flags with another [-p], and with another [-sp]. *)
Definition setPattern (p : string) (fl : Flags) : Flags :=
  {| listFiles := listFiles fl; align := align fl; write := write fl;
     tagSort := tagSort fl; tagSortOrder := tagSortOrder fl;
     tagSortWeight := tagSortWeight fl; doDiff := doDiff fl;
     allErrors := allErrors fl; fill := fill fl; pattern := p;
     inversePattern := inversePattern fl; structPattern := structPattern fl;
     inverseStructPattern := inverseStructPattern fl |}.

Definition setStructPattern (p : string) (fl : Flags) : Flags :=
  {| listFiles := listFiles fl; align := align fl; write := write fl;
     tagSort := tagSort fl; tagSortOrder := tagSortOrder fl;
     tagSortWeight := tagSortWeight fl; doDiff := doDiff fl;
     allErrors := allErrors fl; fill := fill fl; pattern := pattern fl;
     inversePattern := inversePattern fl; structPattern := p;
     inverseStructPattern := inverseStructPattern fl |}.

(** A piece of the [-sw] argument that the loop of line 182 skips. *)
Definition blankSegment (seg : string) : Prop :=
  strings_TrimSpace (strings_TrimSpace seg) = "".

(** A piece of the form [key=integer]: one [=], and a number right of it. *)
Definition keyIntSegment (seg : string) : bool :=
  match strings_Split (strings_TrimSpace seg) "=" with
  | [_; v] =>
      match strconv_Atoi (strings_TrimSpace v) with
      | inr _ => true
      | inl _ => false
      end
  | _ => false
  end.


(** The events that are neither a call of a pass nor output. *)
Definition Silent (ev : Event) : Prop := isPass ev = false /\ isOutput ev = false.

Section Configuration.
Context {Store : Type} `{RT : Runtime Store}.


(** Lines 227 to 245: the branches of [-l] and [-w], which come before
    the diff. *)
Definition listAndWrite (fl : Flags) (filename src res : string) (perm : Z) : M unit :=
  (if listFiles fl then
     attempt (out_Write (filename +:+ String newline "")) ;; ret tt
   else ret tt) ;;
  (if write fl then overwrite filename src res perm else ret tt).

(** What [diff] returns for the output [data] and the error [err] of the
    subprocess (lines 367 to 373). *)
Definition diffOutcome (data : string) (err : option error) (filename : string) :
    error + string :=
  if (0 <? String.length data)%nat then replaceTempFilename data filename
  else match err with
       | Some e => inl e
       | None => inr data
       end.

(** The line [fmt.Printf] writes before the diff (line 251). *)
Definition diffHeader (filename : string) : string :=
  "diff -u " +:+ filepath_ToSlash (filename +:+ ".orig") +:+ " "
  +:+ filepath_ToSlash filename +:+ String newline "".



(** What the deferred [f.Close()] of line 122 adds to the trace. *)
Definition closing (inp : option (error + string)) (filename : string) : list Event :=
  match inp with
  | None => [EvOs (CallClose filename)]
  | Some _ => []
  end.

(** The run gets past lines 116 to 129: with a nil [in], the file opens
    and its mode is read; [readAll] is the reader and [ev0] what the trace
    shows so far. *)
Definition entered (filename : string) (inp : option (error + string)) (w : World)
    (perm : Z) (readAll : M string) (ev0 : list Event) : Prop :=
  match inp with
  | None =>
      exists f, fsys w !! filename = Some f
        /\ os_fails (fsys w) (CallOpen filename) = None
        /\ os_fails (fsys w) (CallStat filename) = None
        /\ perm = mode f
        /\ readAll = File_ReadAll filename
        /\ ev0 = [EvOs (CallOpen filename); EvOs (CallStat filename)]
  | Some r => perm = 420 /\ readAll = readIn r /\ ev0 = []
  end.

(** The run reaches line 203: the selectors are set, the source [src] was
    read with mode [perm] and parsed to the heap [file], and the list
    [executor] is built. *)
Definition reachesPasses (fl : Flags) (filename : string)
    (inp : option (error + string)) (w : World) (src : string) (file : Store)
    (executor : list (Pass * Executor Store)) (perm : Z)
    (ev : list Event) (w1 : World) : Prop :=
  exists readAll ev0 ev1,
    entered filename inp w perm readAll ev0
    /\ setup fl filename readAll w = (ev1, w1, inr (src, file, executor))
    /\ ev = ev0 ++ ev1.

(** The run reaches line 225: the source [src] was read with mode [perm],
    the passes left the heap [file], the printer made [res] of it; the
    trace shows [ev] so far and the world is [w1]. *)
Definition reaches (fl : Flags) (filename : string) (inp : option (error + string))
    (w : World) (src : string) (file : Store) (res : string) (perm : Z)
    (ev : list Event) (w1 : World) : Prop :=
  exists readAll ev0 ev1,
    entered filename inp w perm readAll ev0
    /\ prepare fl filename readAll w = (ev1, w1, inr (src, file, res))
    /\ ev = ev0 ++ ev1.

End Configuration.

(** ** The rest of [gofmt.go]

    Vocabulary for the helpers of [processFile], and the command around
    it: [isGoFile], [resetFlags], [report], [visitFile], [walkDir],
    [gofmtMain] and [main]. *)

(** How often the byte [c] occurs in [s]. *)
Fixpoint countByte (s : string) (c : ascii) : nat :=
  match s with
  | EmptyString => 0
  | String d r => (if Ascii.eqb d c then 1 else 0) + countByte r c
  end.

(** The key and the weight a piece of the [-sw] argument stands for. *)
Definition segmentEntry (seg : string) : option (string * Z) :=
  match strings_Split (strings_TrimSpace seg) "=" with
  | [k; v] =>
      match strconv_Atoi (strings_TrimSpace v) with
      | inr val => Some (strings_TrimSpace k, val)
      | inl _ => None
      end
  | _ => None
  end.

(** What one piece of the [-sw] argument does to the weights. *)
Definition addWeight (weights : gmap string Z) (seg : string) : gmap string Z :=
  if decide (blankSegment seg) then weights
  else match segmentEntry seg with
       | Some (k, v) => <[k := v]> weights
       | None => weights
       end.

(** [os.Remove] is never made to fail by the system. *)
Definition removeNeverFails {Store} `{RT : Runtime Store} : Prop :=
  forall fs name, os_fails fs (CallRemove name) = None.

(** A computation that changes no file but those whose name satisfies [P]. *)
Definition Touches {A} (P : string -> Prop) (m : M A) : Prop :=
  forall w n, ~ P n -> fsys (final (m w)) !! n = fsys w !! n.

(** The name [backupFile] gives the backup of [filename] when the files
    are [fs]. *)
Definition backupName {Store} `{RT : Runtime Store} (fs : FS) (filename : string) : string :=
  os_TempName fs (filepath_Dir (filename +:+ ".")) (filepath_Base (filename +:+ ".")).

(** Two worlds with the same files and the same parser mode: they differ
    in the two filters at most. *)
Definition sameFiles (w w' : World) : Prop :=
  parserMode w = parserMode w' /\ fsys w = fsys w'.

(** A computation that does not look at the filters it starts with. *)
Definition IgnoresFilters {A} (m : M A) : Prop :=
  forall w w', sameFiles w w' ->
    events (m w) = events (m w') /\ outcome (m w) = outcome (m w')
    /\ sameFiles (final (m w)) (final (m w')).

(** [strings.HasPrefix] and [strings.HasSuffix]. *)
Definition strings_HasPrefix (s prefix : string) : bool :=
  (String.length prefix <=? String.length s)%nat
  && String.eqb (String.substring 0 (String.length prefix) s) prefix.

Definition strings_HasSuffix (s suffix : string) : bool :=
  (String.length suffix <=? String.length s)%nat
  && String.eqb (String.substring (String.length s - String.length suffix)
                   (String.length suffix) s) suffix.

(** What the code reads of an [os.FileInfo]. *)
Record FileInfo : Type := mkInfo {
  Name : string;
  IsDir : bool
}.

(** [isGoFile], lines 108 to 112. *)
Definition isGoFile (f : FileInfo) : bool :=
  let name := Name f in
  negb (IsDir f) && negb (strings_HasPrefix name ".") && strings_HasSuffix name ".go".

(** The flag variables with [cpuprofile], which [processFile] does not read. *)
Record Options : Type := mkOptions {
  flags : Flags;
  cpuprofile : string
}.

Definition defaultOptions : Options := {| flags := defaultFlags; cpuprofile := "" |}.

(** [resetFlags], lines 52 to 66: an assignment to every flag variable but
    [tagSortWeight]. *)
Definition resetFlags (o : Options) : Options :=
  {| flags :=
       {| listFiles := false; align := true; write := false; tagSort := false;
          tagSortOrder := ""; tagSortWeight := tagSortWeight (flags o);
          doDiff := false; allErrors := false; fill := ""; pattern := ".*";
          inversePattern := ""; structPattern := ".*"; inverseStructPattern := "" |};
     cpuprofile := "" |}.

(** The process: the package variables and the files, and [exitCode]. *)
Record Process : Type := mkProcess {
  world : World;
  exitCode : Z
}.

Definition set_world (w : World) (p : Process) : Process :=
  {| world := w; exitCode := exitCode p |}.

(** What the command does, step by step. *)
Inductive Step : Type :=
| StepFile (filename : string) (t : list Event)  (* a call of processFile, with its trace *)
| StepReport (e : error)                         (* scanner.PrintError(os.Stderr, err) *)
| StepStderr (msg : string)                      (* a line written to os.Stderr *)
| StepProfileError (e : error).                  (* "creating cpu profile: " and the error *)

(** The files the command has handed to [processFile], in order. *)
Definition processed (t : list Step) : list string :=
  omap (fun s => match s with StepFile f _ => Some f | _ => None end) t.

(** The errors it has reported, in order. *)
Definition reported (t : list Step) : list error :=
  omap (fun s => match s with StepReport e => Some e | _ => None end) t.

(** What one path given to the command leaves in the steps: the report
    of the error of [os.Stat], or the call of [processFile] and the report
    of its error if it has one. *)
Definition argSteps (path : string) (seg : list Step) : Prop :=
  (exists e, seg = [StepReport e])
  \/ (exists t, seg = [StepFile path t])
  \/ (exists t e, seg = [StepFile path t; StepReport e]).

(** [report], lines 91 to 94. *)
Definition report (err : error) (p : Process) : list Step * Process :=
  ([StepReport err], {| world := world p; exitCode := 2 |}).

(** What the command needs of the system besides the [Runtime]:
    [os.IsNotExist], [os.Stat], [filepath.Walk], the standard input as
    [ioutil.ReadAll] finds it, [os.Create] of the profile (line 293) and
    what the deferred [pprof.StopCPUProfile] and [f.Close] leave in the
    files. *)
Class System : Type := mkSystem {
  os_IsNotExist : error -> bool;
  os_Stat : FS -> string -> error + FileInfo;
  filepath_Walk :
    string ->
    (string -> FileInfo -> option error -> Process -> list Step * Process * option error) ->
    Process -> list Step * Process;
  os_Stdin : error + string;
  os_Create : string -> FS -> error + FS;
  pprof_Stop : string -> FS -> FS
}.

Section Command.
Context {Store : Type} `{RT : Runtime Store} `{SYS : System}.

(** A call of [processFile] by the command, and the report of its error. *)
Definition runFile (fl : Flags) (filename : string) (inp : option (error + string))
    (stdin : bool) (p : Process) : list Step * Process * option error :=
  let r := processFile fl filename inp stdin (world p) in
  ([StepFile filename (events r)], set_world (final r) p,
   match outcome r with
   | inl e => Some e
   | inr _ => None
   end).

(** [visitFile], lines 263 to 273. *)
Definition visitFile (fl : Flags) (path : string) (f : FileInfo) (err : option error)
    (p : Process) : list Step * Process * option error :=
  let '(t1, p1, err) :=
    match err with
    | None => if isGoFile f then runFile fl path None false p else ([], p, None)
    | Some e => ([], p, Some e)
    end in
  match err with
  | Some e =>
      if negb (os_IsNotExist e) then
        let '(t2, p2) := report e p1 in (t1 ++ t2, p2, None)
      else (t1, p1, None)
  | None => (t1, p1, None)
  end.

(** [walkDir], lines 275 to 277. *)
Definition walkDir (fl : Flags) (path : string) (p : Process) : list Step * Process :=
  filepath_Walk path (visitFile fl) p.

(** One turn of the loop of lines 318 to 330. *)
Definition processArg (fl : Flags) (path : string) (p : Process) : list Step * Process :=
  match os_Stat (fsys (world p)) path with
  | inl err => report err p
  | inr dir =>
      if IsDir dir then walkDir fl path p
      else
        let '(t1, p1, err) := runFile fl path None false p in
        match err with
        | Some e => let '(t2, p2) := report e p1 in (t1 ++ t2, p2)
        | None => (t1, p1)
        end
  end.

Fixpoint processArgs (fl : Flags) (args : list string) (p : Process) : list Step * Process :=
  match args with
  | [] => ([], p)
  | path :: rest =>
      let '(t1, p1) := processArg fl path p in
      let '(t2, p2) := processArgs fl rest p1 in
      (t1 ++ t2, p2)
  end.

(** Lines 304 to 330: [gofmtMain] after the profile is set up. *)
Definition gofmtRun (fl : Flags) (args : list string) (p : Process) : list Step * Process :=
  let p := set_world
             {| fieldFilter := fieldFilter (world p);
                structFieldSelect := structFieldSelect (world p);
                parserMode := initParserMode fl; fsys := fsys (world p) |} p in
  match args with
  | [] =>
      if write fl then
        ([StepStderr ("error: cannot use -w with standard input" +:+ String newline "")],
         {| world := world p; exitCode := 2 |})
      else
        let '(t1, p1, err) := runFile fl "<standard input>" (Some os_Stdin) true p in
        match err with
        | Some e => let '(t2, p2) := report e p1 in (t1 ++ t2, p2)
        | None => (t1, p1)
        end
  | _ => processArgs fl args p
  end.

(** [gofmtMain], lines 287 to 331, with the flags as [flag.Parse] left
    them. *)
Definition gofmtMain (o : Options) (args : list string) (p : Process) : list Step * Process :=
  if decide (cpuprofile o ≠ "") then
    match os_Create (cpuprofile o) (fsys (world p)) with
    | inl err =>
        ([StepProfileError err], {| world := world p; exitCode := 2 |})
    | inr fs =>
        let '(t, p1) := gofmtRun (flags o) args (set_world (set_fsys fs (world p)) p) in
        (t, set_world (set_fsys (pprof_Stop (cpuprofile o) (fsys (world p1))) (world p1)) p1)
    end
  else gofmtRun (flags o) args p.

(** [main], lines 279 to 285: the value handed to [os.Exit]. *)
Definition main (o : Options) (args : list string) (p : Process) : list Step * Z :=
  let '(t, p1) := gofmtMain o args p in (t, exitCode p1).

(** What the command owes a path that is no directory, when the process
    is [p]: the steps [seg] and the process [p'] after them.  The error of
    [os.Stat] is reported; else the file is handed to [processFile], the
    world is the one that run leaves, and the error of the run, if it has
    one, is reported; a report sets the exit code to 2, and nothing else
    changes it. *)
Definition pathHandled (fl : Flags) (path : string) (p : Process)
    (seg : list Step) (p' : Process) : Prop :=
  match os_Stat (fsys (world p)) path with
  | inl e => seg = [StepReport e] /\ world p' = world p /\ exitCode p' = 2
  | inr _ =>
      let run := processFile fl path None false (world p) in
      world p' = final run
      /\ match outcome run with
         | inl e => seg = [StepFile path (events run); StepReport e] /\ exitCode p' = 2
         | inr _ => seg = [StepFile path (events run)] /\ exitCode p' = exitCode p
         end
  end.

(** The same for a list of paths, one after the other: each starts from
    the process the one before it has left. *)
Inductive pathsHandled (fl : Flags) :
    list string -> Process -> list Step -> Process -> Prop :=
| handled_nil p : pathsHandled fl [] p [] p
| handled_cons path rest p seg p1 t p2 :
    pathHandled fl path p seg p1 ->
    pathsHandled fl rest p1 t p2 ->
    pathsHandled fl (path :: rest) p (seg ++ t) p2.

End Command.

(** The process when the loop over the paths starts: [initParserMode] has
    run, nothing else has. *)
Definition startProcess (fl : Flags) (fs : FS) : Process :=
  {| world := {| fieldFilter := None; structFieldSelect := None;
                 parserMode := initParserMode fl; fsys := fs |};
     exitCode := 0 |}.

(** The process as it starts: no filter, no parser mode, exit code 0. *)
Definition initialProcess (fs : FS) : Process :=
  {| world := {| fieldFilter := None; structFieldSelect := None;
                 parserMode := 0; fsys := fs |};
     exitCode := 0 |}.

(** ** The tag grammar (specification, section 4.1)

    The files of the grammar and of the passes are not part of
    [gofmt.go]; what follows is written from the specification. *)

Module TagGrammar.

(** The per-field data errors, named as lines 80 to 84 name them. *)
Inductive TagError : Type :=
| UnclosedQuote
| UnclosedBracket
| InvalidTag.

(** An entry: the key, the value with its two quotes, and the position
    of the entry in the tag. *)
Record Entry : Type := mkEntry {
  key : string;
  quotedValue : string;
  index : nat
}.

Definition backslash : ascii := ascii_of_nat 92.

Definition snoc (s : string) (c : ascii) : string := s +:+ String c "".

(** Modelled from the spec: the characters of a key.  A key is a token:
    no blank, no control character, no quote and no colon. *)
Definition isKeyChar (c : ascii) : bool :=
  let n := nat_of_ascii c in
  (32 <? n)%nat && negb (n =? 34)%nat && negb (n =? 58)%nat && negb (n =? 127)%nat.

(** Where the scan stands inside a tag. *)
Inductive Phase : Type :=
| InKey (k : string)          (* reading key characters, up to the colon *)
| WantQuote (k : string)      (* after the colon: the value must open *)
| InValue (k body : string)   (* inside the quotes *)
| Escaped (k body : string)   (* after a backslash inside the quotes *)
| AfterEntry.                 (* after the closing quote *)

Section Grammar.

(** The specification leaves the bracket syntax of sub-options open: the
    test for a value with an opening bracket and no close is a parameter. *)
Variable unclosedBracket : string -> bool.

(** Modelled from the spec: the scan of [parse], one character at a time.
    Key characters run up to the colon; the value is delimited by quotes
    and a backslash escapes the next character; exactly one space
    separates two entries.  An input that ends inside a value fails with
    [UnclosedQuote], a value with an unclosed bracket with
    [UnclosedBracket], anything else that breaks the shape with
    [InvalidTag]. *)
Fixpoint parseFrom (s : string) (ph : Phase) (acc : list Entry) :
    TagError + list Entry :=
  match s with
  | EmptyString =>
      match ph with
      | AfterEntry => inr acc
      | InValue _ _ | Escaped _ _ => inl UnclosedQuote
      | InKey _ | WantQuote _ => inl InvalidTag
      end
  | String c r =>
      match ph with
      | InKey k =>
          if Ascii.eqb c ":" then
            (if String.eqb k "" then inl InvalidTag
             else parseFrom r (WantQuote k) acc)
          else if isKeyChar c then parseFrom r (InKey (snoc k c)) acc
          else inl InvalidTag
      | WantQuote k =>
          if Ascii.eqb c dquote then parseFrom r (InValue k "") acc
          else inl InvalidTag
      | InValue k body =>
          if Ascii.eqb c dquote then
            (if unclosedBracket body then inl UnclosedBracket
             else parseFrom r AfterEntry
                    (acc ++ [mkEntry k (String dquote (snoc body dquote)) (length acc)]))
          else if Ascii.eqb c backslash then parseFrom r (Escaped k (snoc body c)) acc
          else parseFrom r (InValue k (snoc body c)) acc
      | Escaped k body => parseFrom r (InValue k (snoc body c)) acc
      | AfterEntry =>
          if Ascii.eqb c " " then parseFrom r (InKey "") acc
          else inl InvalidTag
      end
  end.

(** Modelled from the spec: [parse(raw)], the ordered list of entries of
    a tag or the error.  The empty tag has no entry. *)
Definition parse (raw : string) : TagError + list Entry :=
  match raw with
  | EmptyString => inr []
  | _ => parseFrom raw (InKey "") []
  end.

End Grammar.

Definition entryText (e : Entry) : string := key e +:+ ":" +:+ quotedValue e.

(** Modelled from the spec: [serialize(entries)], the entries in order
    with a single space between two of them and none at the end. *)
Definition serialize (es : list Entry) : string :=
  bytes_Join (map entryText es) " ".

(** The text of the entries read so far, with the space that follows them
    once another entry has begun. *)
Definition lead (acc : list Entry) : string :=
  match acc with
  | [] => ""
  | _ => serialize acc +:+ " "
  end.

(** The part of the current entry that the scan has read. *)
Definition partial (ph : Phase) : string :=
  match ph with
  | InKey k => k
  | WantQuote k => k +:+ ":"
  | InValue k body | Escaped k body => k +:+ ":" +:+ String dquote body
  | AfterEntry => ""
  end.

Definition consumed (acc : list Entry) (ph : Phase) : string :=
  match ph with
  | AfterEntry => serialize acc
  | _ => lead acc +:+ partial ph
  end.

End TagGrammar.

(** ** The repair pass (specification, section 4.3) *)

Module TagDoctor.
Import TagGrammar.

(** A field as the passes see it: the name of the record, the name of the
    field and the text of its tag literal, if it has one.  The identity of
    a field is its position in the tree. *)
Record Field : Type := mkField {
  structName : string;
  fieldName : string;
  tag : option string
}.

(** The heap of a run: the fields of the tree, the pending edits of the
    pass (field identity, new literal text) and the fields it reported. *)
Record Store : Type := mkStore {
  fields : list Field;
  pending : list (nat * string);
  diagnostics : list (nat * TagError)
}.

Definition setTag (text : string) (f : Field) : Field :=
  {| structName := structName f; fieldName := fieldName f; tag := Some text |}.

(** What the scan decides for one field. *)
Inductive Verdict : Type :=
| Keep
| Repair (text : string) (e : TagError)
| Report (e : TagError).

Section Doctor.

Variable unclosedBracket : string -> bool.
(** The terminator of the open bracket syntax. *)
Variable bracketCloser : string.

(** Modelled from the spec: a field takes part in a pass when both
    selectors match its names (section 4.2).  [processFile] sets both
    filters before any pass runs; an unset filter selects nothing. *)
Definition selected (w : World) (f : Field) : bool :=
  from_option (fun p => p (fieldName f)) false (fieldFilter w)
  && from_option (fun p => p (structName f)) false (structFieldSelect w).

(** Modelled from the spec: the verdict of the doctor on one field.  An
    unclosed quote or bracket is repaired by the missing terminator at
    the end of the literal; an invalid tag is left as it is and reported. *)
Definition examine (w : World) (f : Field) : Verdict :=
  if selected w f then
    match tag f with
    | None => Keep
    | Some raw =>
        match parse unclosedBracket raw with
        | inr _ => Keep
        | inl UnclosedQuote => Repair (snoc raw dquote) UnclosedQuote
        | inl UnclosedBracket => Repair (raw +:+ bracketCloser) UnclosedBracket
        | inl InvalidTag => Report InvalidTag
        end
    end
  else Keep.

Definition editOf (i : nat) (v : Verdict) : list (nat * string) :=
  match v with
  | Repair text _ => [(i, text)]
  | _ => []
  end.

(** The data error behind a verdict. *)
Definition faultOf (v : Verdict) : option TagError :=
  match v with
  | Repair _ e | Report e => Some e
  | Keep => None
  end.

Definition diagnosticOf (i : nat) (v : Verdict) : list (nat * TagError) :=
  match faultOf v with
  | Some e => [(i, e)]
  | None => []
  end.

(** The walk of the scan over the fields, [i] being the identity of the
    first of them. *)
Fixpoint scanFields (w : World) (i : nat) (fs : list Field) :
    list (nat * string) * list (nat * TagError) :=
  match fs with
  | [] => ([], [])
  | f :: rest =>
      let v := examine w f in
      let '(edits, diags) := scanFields w (S i) rest in
      (editOf i v ++ edits, diagnosticOf i v ++ diags)
  end.

(** Modelled from the spec: the [Scan] of the doctor.  It reads every
    field, records the repaired texts as pending edits and the fields with
    a data error as diagnostics, changes no field, and returns no error:
    a malformed tag does not fail the run. *)
Definition scan (w : World) (st : Store) : Store * option error :=
  let '(edits, diags) := scanFields w 0 (fields st) in
  (mkStore (fields st) edits diags, None).

Definition applyEdit (fs : list Field) (e : nat * string) : list Field :=
  alter (setTag e.2) e.1 fs.

(** Modelled from the spec: the [Execute] of the doctor.  It replaces the
    tag literal of each field that has a pending edit by the new text and
    drops the edits. *)
Definition execute (w : World) (st : Store) : Store * option error :=
  (mkStore (foldl applyEdit (fields st) (pending st)) [] (diagnostics st), None).

Definition executor : Executor Store := mkExecutor scan execute.



End Doctor.

End TagDoctor.

(** ** A small runtime to run the model on

    Test doubles for what [gofmt.go] imports: a regular-expression engine
    for a fragment of the syntax, a line-oriented source format with its
    parser and printer, passes that record nothing (the doctor apart), and
    an operating system whose failures are scripted. *)

Module Demo.
Import TagGrammar TagDoctor.

(** *** Regular expressions: literals, [.], and [*] after one of them *)

Inductive Atom : Type :=
| AnyChar
| Lit (c : ascii).

Definition isMeta (c : ascii) : bool :=
  existsb (Ascii.eqb c) (String.list_ascii_of_string "()[]{}+?|^$\").

(** A pattern of the fragment as atoms, each starred or not; [*] with
    nothing to repeat is refused, as [regexp.Compile] refuses it. *)
Fixpoint compileItems (s : string) (prev : option Atom) : error + list (Atom * bool) :=
  let flush (rest : list (Atom * bool)) :=
    match prev with
    | Some a => (a, false) :: rest
    | None => rest
    end in
  match s with
  | EmptyString => inr (flush [])
  | String c r =>
      if Ascii.eqb c "*" then
        match prev with
        | None => inl (ErrExternal "regexp" "missing argument to repetition operator")
        | Some a =>
            match compileItems r None with
            | inl e => inl e
            | inr rest => inr ((a, true) :: rest)
            end
        end
      else if isMeta c then inl (ErrExternal "regexp" "operator outside the fragment")
      else
        match compileItems r (Some (if Ascii.eqb c "." then AnyChar else Lit c)) with
        | inl e => inl e
        | inr rest => inr (flush rest)
        end
  end.

Definition atomMatches (a : Atom) (c : ascii) : bool :=
  match a with
  | AnyChar => negb (Ascii.eqb c newline)
  | Lit d => Ascii.eqb c d
  end.

(** Does a prefix of [s] match the items? *)
Fixpoint matchItems (its : list (Atom * bool)) (s : string) : bool :=
  match its with
  | [] => true
  | (a, false) :: rest =>
      match s with
      | String c s' => atomMatches a c && matchItems rest s'
      | EmptyString => false
      end
  | (a, true) :: rest =>
      (fix star (s : string) : bool :=
         matchItems rest s
         || match s with
            | String c s' => atomMatches a c && star s'
            | EmptyString => false
            end) s
  end.

(** [MatchString]: does some substring of [s] match? *)
Fixpoint searchItems (its : list (Atom * bool)) (s : string) : bool :=
  matchItems its s
  || match s with
     | String _ s' => searchItems its s'
     | EmptyString => false
     end.

(** *** The source format: one field a line, [struct field tag] *)

Definition isBlank (c : ascii) : bool := Ascii.eqb c " " || Ascii.eqb c tab.

Fixpoint cutBlank (s : string) : option (string * string) :=
  match s with
  | EmptyString => None
  | String c r =>
      if isBlank c then Some (EmptyString, r)
      else match cutBlank r with
           | Some (a, b) => Some (String c a, b)
           | None => None
           end
  end.

Definition parseLine (l : string) : error + Field :=
  match cutBlank l with
  | None => inl (ErrExternal "parser" "expected a field")
  | Some (s, rest) =>
      match cutBlank rest with
      | None => inr (mkField s rest None)
      | Some (f, t) => inr (mkField s f (Some t))
      end
  end.

Fixpoint parseLines (ls : list string) : error + list Field :=
  match ls with
  | [] => inr []
  | [EmptyString] => inr []
  | l :: rest =>
      match parseLine l, parseLines rest with
      | inr f, inr fs => inr (f :: fs)
      | inl e, _ => inl e
      | _, inl e => inl e
      end
  end.

Definition parseSource (filename src : string) (mode : Z) : error + Store :=
  match parseLines (strings_Split src newline) with
  | inl e => inl e
  | inr fs => inr (mkStore fs [] [])
  end.

(** The printer writes a single space between the parts of a line,
    whatever the source had there. *)
Definition printField (f : Field) : string :=
  structName f +:+ " " +:+ fieldName f
  +:+ from_option (fun t => " " +:+ t) "" (tag f) +:+ String newline "".

Definition printSource (st : Store) : error + string :=
  inr (foldr (fun f acc => printField f +:+ acc) "" (fields st)).

(** *** Brackets: round ones, counted *)

Fixpoint depth (s : string) (n : nat) : nat :=
  match s with
  | EmptyString => n
  | String c r =>
      if Ascii.eqb c "(" then depth r (S n)
      else if Ascii.eqb c ")" then depth r (pred n)
      else depth r n
  end.

Definition unclosedRound (value : string) : bool := (0 <? depth value 0)%nat.

Definition doctor : Executor Store := TagDoctor.executor unclosedRound ")".

(** *** Passes that record nothing *)

Definition idle : Executor Store :=
  mkExecutor (fun _ st => (st, None)) (fun _ st => (st, None)).

Definition demoTagFill (rule : string) : error + Executor Store :=
  match cut rule "=" with
  | Some _ => inr idle
  | None => inl (ErrExternal "tagfill" "invalid fill rule")
  end.

(** *** Paths and temporary names *)

Definition splitPath (p : string) : string * string :=
  match cut (String.rev p) "/" with
  | Some (b, d) => (String.rev d, String.rev b)
  | None => (".", p)
  end.

Definition tempName (fs : FS) (dir prefix : string) : string :=
  let base := (if String.eqb dir "" then "/tmp" else dir) +:+ "/" +:+ prefix in
  match fs !! (base +:+ "1"), fs !! (base +:+ "2") with
  | None, _ => base +:+ "1"
  | Some _, None => base +:+ "2"
  | Some _, Some _ => base +:+ "3"
  end.

(** *** The scripted operating system *)

Record Script : Type := mkScript {
  fails : FS -> OsCall -> option error;
  torn : FS -> OsCall -> option string;
  diffResult : string * option error
}.

Definition quiet : Script :=
  {| fails := fun _ _ => None; torn := fun _ _ => None;
     diffResult := ("", None) |}.

Definition runtime (sc : Script) : Runtime Store :=
  {| Regexp := list (Atom * bool);
     regexp_Compile := fun expr => compileItems expr None;
     regexp_MatchString := searchItems;
     parser_ParseFile := parseSource;
     printer_Fprint := printSource;
     tagDoctor := doctor;
     newTagFill := demoTagFill;
     newTagSort := fun _ _ => idle;
     newTagFmt := idle;
     runtime_GOOS := "linux";
     filepath_Dir := fun p => (splitPath p).1;
     filepath_Base := fun p => (splitPath p).2;
     filepath_ToSlash := fun p => p;
     os_fails := fails sc;
     os_torn := torn sc;
     os_TempName := tempName;
     exec_CombinedOutput := fun _ _ _ => diffResult sc |}.

(** A value in quotes. *)
Definition q (s : string) : string := String dquote (s +:+ String dquote "").

Definition line (parts : list string) : string :=
  bytes_Join parts " " +:+ String newline "".

Definition world0 (fs : FS) : World :=
  {| fieldFilter := None; structFieldSelect := None; parserMode := 4; fsys := fs |}.

(** Three fields: a well-formed tag, one with an unclosed quote, and one
    that is no tag at all. *)
Definition sample : string :=
  line ["User"; "Name"; "json:" +:+ q "name"]
  +:+ line ["User"; "Age"; "json:" +:+ String dquote "age"]
  +:+ line ["User"; "ID"; "json=id"].

(** The sample after the doctor. *)
Definition sampleRepaired : string :=
  line ["User"; "Name"; "json:" +:+ q "name"]
  +:+ line ["User"; "Age"; "json:" +:+ q "age"]
  +:+ line ["User"; "ID"; "json=id"].

(** Every pass on. *)
Definition allPasses : Flags :=
  {| listFiles := false; align := true; write := false; tagSort := true;
     tagSortOrder := "json|yaml"; tagSortWeight := "json=2| yaml = 1 |";
     doDiff := false; allErrors := false; fill := "json=lower(_val)";
     pattern := ".*"; inversePattern := ""; structPattern := ".*";
     inverseStructPattern := "" |}.

(** ** Runs of the model on the demo runtime *)

(** [processFile] on a world that holds the files [fs]. *)
Definition run (sc : Script) (fl : Flags) (filename : string)
    (inp : option (error + string)) (fs : FS) :=
  @processFile Store (runtime sc) fl filename inp false (world0 fs).

(** The same for [prepare] and [setup]. *)
Definition prepared (sc : Script) (fl : Flags) (filename : string)
    (readAll : M string) (fs : FS) :=
  @prepare Store (runtime sc) fl filename readAll (world0 fs).




(** [-P Age] beside a [-p] that does not compile. *)
Definition inverseOnly : Flags :=
  {| listFiles := false; align := true; write := false; tagSort := false;
     tagSortOrder := ""; tagSortWeight := ""; doDiff := false;
     allErrors := false; fill := ""; pattern := "*"; inversePattern := "Age";
     structPattern := ".*"; inverseStructPattern := "" |}.

(** The defaults with [-d]. *)
Definition diffMode : Flags :=
  {| listFiles := false; align := true; write := false; tagSort := false;
     tagSortOrder := ""; tagSortWeight := ""; doDiff := true;
     allErrors := false; fill := ""; pattern := ".*"; inversePattern := "";
     structPattern := ".*"; inverseStructPattern := "" |}.

(** The defaults with [-w]. *)
Definition writeMode : Flags :=
  {| listFiles := false; align := true; write := true; tagSort := false;
     tagSortOrder := ""; tagSortWeight := ""; doDiff := false;
     allErrors := false; fill := ""; pattern := ".*"; inversePattern := "";
     structPattern := ".*"; inverseStructPattern := "" |}.

(** A line with tabs where the printer writes spaces, and the same line
    as the printer writes it. *)
Definition tabbed : string :=
  "User" +:+ String tab "Name" +:+ String tab ("json:" +:+ q "name")
  +:+ String newline "".

Definition spaced : string := line ["User"; "Name"; "json:" +:+ q "name"].

Definition exitStatus (n : string) : error := ErrExternal "exec" ("exit status " +:+ n).

(** The subprocess fails and says why on two lines. *)
Definition diffTrouble : Script :=
  {| fails := fun _ _ => None; torn := fun _ _ => None;
     diffResult :=
       ("diff: /tmp/gofmt1: No such file or directory" +:+ String newline ""
        +:+ "diff: /tmp/gofmt2: No such file or directory" +:+ String newline "",
        Some (exitStatus "2")) |}.

(** The subprocess fails and says nothing. *)
Definition diffSilent : Script :=
  {| fails := fun _ _ => None; torn := fun _ _ => None;
     diffResult := ("", Some (exitStatus "2")) |}.

Definition noSpace : error := ErrExternal "os" "no space left on device".


(** A file system with one file, of mode 0644. *)
Definition oneFile (name data : string) : FS := {[ name := mkFile 420 data ]}.

(** A tag of two keys. *)
Definition twoKeys : string := "json:" +:+ q "name,omitempty" +:+ " yaml:" +:+ q "n".

(** The fields of [sample], as parsed and as the doctor leaves them. *)
Definition nameField : Field := mkField "User" "Name" (Some ("json:" +:+ q "name")).

Definition sampleFields : list Field :=
  [ nameField;
    mkField "User" "Age" (Some ("json:" +:+ String dquote "age"));
    mkField "User" "ID" (Some "json=id") ].

Definition repairedFields : list Field :=
  [ nameField;
    mkField "User" "Age" (Some ("json:" +:+ q "age"));
    mkField "User" "ID" (Some "json=id") ].

Definition repairedStore : Store :=
  mkStore repairedFields [] [(1%nat, UnclosedQuote); (2%nat, InvalidTag)].

(** ** More runs: a pass that fails, a full disk, the command *)

(** A fill pass whose [Scan] fails. *)
Definition refusing : Executor Store :=
  mkExecutor (fun _ st => (st, Some (ErrExternal "tagfill" "no such key")))
             (fun _ st => (st, None)).

(** The runtime of [quiet], with that fill pass. *)
Definition strictRuntime : Runtime Store :=
  {| Regexp := list (Atom * bool);
     regexp_Compile := fun expr => compileItems expr None;
     regexp_MatchString := searchItems;
     parser_ParseFile := parseSource;
     printer_Fprint := printSource;
     tagDoctor := doctor;
     newTagFill := fun _ => inr refusing;
     newTagSort := fun _ _ => idle;
     newTagFmt := idle;
     runtime_GOOS := "linux";
     filepath_Dir := fun p => (splitPath p).1;
     filepath_Base := fun p => (splitPath p).2;
     filepath_ToSlash := fun p => p;
     os_fails := fun _ _ => None;
     os_torn := fun _ _ => None;
     os_TempName := tempName;
     exec_CombinedOutput := fun _ _ _ => ("", None) |}.

(** The temporary file cannot be written. *)
Definition tempFull : Script :=
  {| fails := fun _ c => match c with CallWrite _ _ => Some noSpace | _ => None end;
     torn := fun _ _ => None;
     diffResult := ("", None) |}.

(** [os.IsNotExist] on the errors of the model. *)
Definition isNotExist (e : error) : bool :=
  match e with
  | ErrExternal origin msg => String.eqb origin "os" && String.eqb msg "file does not exist"
  | _ => false
  end.

(** A system without directories: a path is a file or does not exist. *)
Definition flatSystem (stdin : error + string) : System :=
  {| os_IsNotExist := isNotExist;
     os_Stat := fun fs path =>
       match fs !! path with
       | Some _ => inr (mkInfo (splitPath path).2 false)
       | None => inl errNotExist
       end;
     filepath_Walk := fun _ _ p => ([], p);
     os_Stdin := stdin;
     os_Create := fun name fs => inr (<[name := mkFile 438 ""]> fs);
     pprof_Stop := fun _ fs => fs |}.

(** The defaults with [-l], and with a fill rule. *)
Definition listMode : Flags :=
  {| listFiles := true; align := true; write := false; tagSort := false;
     tagSortOrder := ""; tagSortWeight := ""; doDiff := false;
     allErrors := false; fill := ""; pattern := ".*"; inversePattern := "";
     structPattern := ".*"; inverseStructPattern := "" |}.

Definition fillMode : Flags :=
  {| listFiles := false; align := true; write := false; tagSort := false;
     tagSortOrder := ""; tagSortWeight := ""; doDiff := false;
     allErrors := false; fill := "json=lower(_val)"; pattern := ".*"; inversePattern := "";
     structPattern := ".*"; inverseStructPattern := "" |}.

(** Two files, of which a run is given the first. *)
Definition twoFiles : FS :=
  <["dir/b.go" := mkFile 420 spaced]> (oneFile "dir/a.go" sample).

(** The first lines of what [diff -u] prints. *)
Definition diffText : string :=
  ("--- /tmp/gofmt1" +:+ String tab "2017-02-03 19:13:00 -0500") +:+ String newline
  (("+++ /tmp/gofmt2" +:+ String tab "2017-02-03 19:13:01 -0500") +:+ String newline
   ("@@ -1 +1 @@" +:+ String newline "")).

(** Weights that name a key twice. *)
Definition jsonTwice : list string := ["json=1"; "yaml=2"] ++ " json = 3 " :: [].

Definition jsonTwiceWeights : gmap string Z :=
  <["json" := 3]> (<["yaml" := 2]> (<["json" := 1]> (∅ : gmap string Z))).






End Demo.

(** * Properties *)

(** ** The monad *)

Section MonadFacts.
Context {A B : Type}.

Lemma events_triple ev w (o : error + A) : events (ev, w, o) = ev.
Proof. reflexivity. Qed.

Lemma final_triple ev w (o : error + A) : final (ev, w, o) = w.
Proof. reflexivity. Qed.

Lemma outcome_triple ev w (o : error + A) : outcome (ev, w, o) = o.
Proof. reflexivity. Qed.

Lemma outcome_liftResult (r : error + A) w : outcome (liftResult r w) = r.
Proof. by destruct r. Qed.

Lemma final_liftResult (r : error + A) w : final (liftResult r w) = w.
Proof. by destruct r. Qed.

Lemma events_liftResult (r : error + A) w : events (liftResult r w) = [].
Proof. by destruct r. Qed.

Lemma run_eta (r : list Event * World * (error + A)) :
  r = (events r, final r, outcome r).
Proof. by destruct r as [[ev w] o]. Qed.

Lemma bind_err (m : M A) (k : A -> M B) w ev w1 e :
  m w = (ev, w1, inl e) -> bind m k w = (ev, w1, inl e).
Proof. intros H. unfold bind. by rewrite H. Qed.

Lemma bind_ok (m : M A) (k : A -> M B) w ev w1 a :
  m w = (ev, w1, inr a) ->
  bind m k w = (ev ++ events (k a w1), final (k a w1), outcome (k a w1)).
Proof.
  intros H. unfold bind. rewrite H.
  by destruct (k a w1) as [[ev2 w2] r].
Qed.

Lemma bind_events (m : M A) (k : A -> M B) w :
  events (bind m k w)
  = events (m w) ++ match outcome (m w) with
                    | inl _ => []
                    | inr a => events (k a (final (m w)))
                    end.
Proof.
  unfold bind, events, final, outcome.
  destruct (m w) as [[ev1 w1] [e|a]]; simpl.
  - by rewrite app_nil_r.
  - by destruct (k a w1) as [[ev2 w2] r].
Qed.

Lemma bind_fails (m : M A) (k : A -> M B) w e :
  outcome (m w) = inl e ->
  bind m k w = (events (m w), final (m w), inl e).
Proof.
  unfold bind, events, final, outcome.
  destruct (m w) as [[ev1 w1] [e1|a]]; simpl; intros H; by simplify_eq.
Qed.

Lemma deferring_run (d : M B) (m : M A) w :
  deferring d m w
  = (events (m w) ++ events (d (final (m w))), final (d (final (m w))), outcome (m w)).
Proof.
  unfold deferring, events, final, outcome.
  destruct (m w) as [[ev1 w1] r]; simpl.
  by destruct (d w1) as [[ev2 w2] r2].
Qed.

Lemma attempt_run (m : M A) w :
  attempt m w = (events (m w), final (m w), inr (outcome (m w))).
Proof. unfold attempt. by destruct (m w) as [[ev1 w1] r]. Qed.

End MonadFacts.


Lemma final_getWorld w : final (getWorld w) = w.
Proof. reflexivity. Qed.

Lemma set_fsys_same (w : World) : set_fsys (fsys w) w = w.
Proof. by destruct w. Qed.

(** *** Traces *)

Lemma passEvents_app (t1 t2 : list Event) :
  passEvents (t1 ++ t2) = passEvents t1 ++ passEvents t2.
Proof. apply List.filter_app. Qed.

Lemma passEvents_all (t : list Event) :
  Forall (fun ev => isPass ev = true) t -> passEvents t = t.
Proof.
  unfold passEvents. induction 1 as [| ev l Hev _ IH]; [done |].
  simpl. by rewrite Hev, IH.
Qed.

Lemma passEvents_none (t : list Event) :
  Forall (fun ev => isPass ev = false) t -> passEvents t = [].
Proof.
  unfold passEvents. induction 1 as [| ev l Hev _ IH]; [done |].
  simpl. by rewrite Hev, IH.
Qed.

(** *** What a computation emits *)

Section EmitsFacts.
Context (P : Event -> Prop).

Lemma Emits_ret {A} (a : A) : Emits P (ret a).
Proof. intros w. constructor. Qed.

Lemma Emits_throw {A} (e : error) : Emits P (@throw A e).
Proof. intros w. constructor. Qed.

Lemma Emits_getWorld : Emits P getWorld.
Proof. intros w. constructor. Qed.

Lemma Emits_modify f : Emits P (modify f).
Proof. intros w. constructor. Qed.

Lemma Emits_liftResult {A} (r : error + A) : Emits P (liftResult r).
Proof. destruct r; [apply Emits_throw | apply Emits_ret]. Qed.

Lemma Emits_emit ev : P ev -> Emits P (emit ev).
Proof. intros H w. by repeat constructor. Qed.

Lemma Emits_bind {A B} (m : M A) (k : A -> M B) :
  Emits P m -> (forall a, Emits P (k a)) -> Emits P (bind m k).
Proof.
  intros Hm Hk w. rewrite bind_events. apply Forall_app. split; [apply Hm |].
  destruct (outcome (m w)); [constructor | apply Hk].
Qed.

Lemma Emits_attempt {A} (m : M A) : Emits P m -> Emits P (attempt m).
Proof. intros Hm w. rewrite attempt_run. apply Hm. Qed.

Lemma Emits_deferring {A B} (d : M B) (m : M A) :
  Emits P m -> Emits P d -> Emits P (deferring d m).
Proof.
  intros Hm Hd w. rewrite deferring_run. apply Forall_app. split; [apply Hm | apply Hd].
Qed.

End EmitsFacts.

(** One step of a proof that a computation emits only events of a kind:
    the goal is taken apart along the shape of the computation. *)
Ltac emits_step :=
  match goal with
  | |- Emits _ (bind _ _) => apply Emits_bind; [ | intros ]
  | |- Emits _ (ret _) => apply Emits_ret
  | |- Emits _ (throw _) => apply Emits_throw
  | |- Emits _ getWorld => apply Emits_getWorld
  | |- Emits _ (modify _) => apply Emits_modify
  | |- Emits _ (liftResult _) => apply Emits_liftResult
  | |- Emits _ (attempt _) => apply Emits_attempt
  | |- Emits _ (deferring _ _) => apply Emits_deferring
  | |- Emits _ (emit _) => apply Emits_emit
  | |- Emits _ (if ?b then _ else _) => destruct b
  | |- Emits _ (match ?x with _ => _ end) => destruct x
  end.

(** ** The orchestrator *)

Section OrchestratorFacts.
Context {Store : Type} `{RT : Runtime Store}.

(** *** System calls *)

Lemma syscall_events {A} c (run : FS -> error + (FS * A)) torn w :
  events (syscall c run torn w) = [EvOs c].
Proof.
  unfold syscall. destruct (os_fails (fsys w) c); [done |].
  by destruct (run (fsys w)) as [e | [fs' a]].
Qed.

Lemma Emits_syscall {A} P c (run : FS -> error + (FS * A)) torn :
  P (EvOs c) -> Emits P (syscall c run torn).
Proof. intros H w. rewrite syscall_events. by repeat constructor. Qed.

Lemma Emits_exec P cmd args :
  P (EvExec cmd args) -> Emits P (exec_Command cmd args).
Proof. intros H w. by repeat constructor. Qed.

(** A call that reads: whatever its result, the files are as they were. *)
Lemma syscall_keeps {A} c (run : FS -> error + (FS * A)) :
  (forall fs fs' a, run fs = inr (fs', a) -> fs' = fs) ->
  KeepsFiles (syscall c run id).
Proof.
  intros Hrun w. unfold syscall. destruct (os_fails (fsys w) c); [done |].
  destruct (run (fsys w)) as [e | [fs' a]] eqn:E; [done |].
  apply Hrun in E. by subst.
Qed.

Lemma os_Open_keeps name : KeepsFiles (os_Open name).
Proof. apply syscall_keeps. intros fs fs' a. destruct (fs !! name); naive_solver. Qed.

Lemma File_Stat_keeps name : KeepsFiles (File_Stat name).
Proof. apply syscall_keeps. intros fs fs' a. destruct (fs !! name); naive_solver. Qed.

Lemma File_ReadAll_keeps name : KeepsFiles (File_ReadAll name).
Proof. apply syscall_keeps. intros fs fs' a. destruct (fs !! name); naive_solver. Qed.

Lemma File_Close_keeps name : KeepsFiles (File_Close name).
Proof. apply syscall_keeps. naive_solver. Qed.

Lemma out_Write_keeps data : KeepsFiles (out_Write data).
Proof. apply syscall_keeps. naive_solver. Qed.

Lemma KeepsFiles_bind {A B} (m : M A) (k : A -> M B) :
  KeepsFiles m -> (forall a, KeepsFiles (k a)) -> KeepsFiles (bind m k).
Proof.
  intros Hm Hk w. specialize (Hm w). unfold bind, final in *.
  destruct (m w) as [[ev1 w1] [e|a]]; simpl in *; [done |].
  specialize (Hk a w1). unfold final in Hk.
  destruct (k a w1) as [[ev2 w2] r]; simpl in *. congruence.
Qed.

Lemma KeepsFiles_deferring {A B} (d : M B) (m : M A) :
  KeepsFiles m -> KeepsFiles d -> KeepsFiles (deferring d m).
Proof.
  intros Hm Hd w. rewrite deferring_run. unfold final at 1; simpl.
  rewrite Hd. apply Hm.
Qed.

(** *** Lines 203 to 214 *)

Lemma scanAll_final (executor : list (Pass * Executor Store)) (file : Store) w : final (scanAll executor file w) = w.
Proof.
  revert file. induction executor as [| [p scan] rest IH]; intros file; [done |].
  simpl. unfold bind, emit, getWorld, throw, final; simpl.
  destruct (Scan scan w file) as [file' [err |]]; simpl; [done |].
  specialize (IH file'). unfold final in IH.
  by destruct (scanAll rest file' w) as [[ev2 w2] r].
Qed.

Lemma scanAll_prefix (executor : list (Pass * Executor Store)) (file : Store) w :
  events (scanAll executor file w) `prefix_of` map EvScan (map fst executor).
Proof.
  revert file. induction executor as [| [p scan] rest IH]; intros file; [done |].
  simpl. unfold bind, emit, getWorld, throw, events; simpl.
  destruct (Scan scan w file) as [file' [err |]]; simpl.
  - apply (prefix_cons _ []), prefix_nil.
  - specialize (IH file'). unfold events in IH.
    destruct (scanAll rest file' w) as [[ev2 w2] r]. simpl in *.
    by apply prefix_cons.
Qed.

Lemma scanAll_ok (executor : list (Pass * Executor Store)) (file : Store) w file' :
  outcome (scanAll executor file w) = inr file' ->
  events (scanAll executor file w) = map EvScan (map fst executor).
Proof.
  revert file. induction executor as [| [p scan] rest IH]; intros file; [done |].
  simpl. unfold bind, emit, getWorld, throw, events, outcome; simpl.
  destruct (Scan scan w file) as [file1 [err |]]; simpl; [done |].
  specialize (IH file1). unfold events, outcome in IH.
  destruct (scanAll rest file1 w) as [[ev2 w2] r]. simpl in *.
  intros ->. f_equal. by apply IH.
Qed.

Lemma executeAll_final (executor : list (Pass * Executor Store)) (file : Store) w : final (executeAll executor file w) = w.
Proof.
  revert file. induction executor as [| [p exe] rest IH]; intros file; [done |].
  simpl. unfold bind, emit, getWorld, throw, final; simpl.
  destruct (Execute exe w file) as [file' [err |]]; simpl; [done |].
  specialize (IH file'). unfold final in IH.
  by destruct (executeAll rest file' w) as [[ev2 w2] r].
Qed.

Lemma executeAll_prefix (executor : list (Pass * Executor Store)) (file : Store) w :
  events (executeAll executor file w) `prefix_of` map EvExecute (map fst executor).
Proof.
  revert file. induction executor as [| [p exe] rest IH]; intros file; [done |].
  simpl. unfold bind, emit, getWorld, throw, events; simpl.
  destruct (Execute exe w file) as [file' [err |]]; simpl.
  - apply (prefix_cons _ []), prefix_nil.
  - specialize (IH file'). unfold events in IH.
    destruct (executeAll rest file' w) as [[ev2 w2] r]. simpl in *.
    by apply prefix_cons.
Qed.

Lemma executeAll_ok (executor : list (Pass * Executor Store)) (file : Store) w file' :
  outcome (executeAll executor file w) = inr file' ->
  events (executeAll executor file w) = map EvExecute (map fst executor).
Proof.
  revert file. induction executor as [| [p exe] rest IH]; intros file; [done |].
  simpl. unfold bind, emit, getWorld, throw, events, outcome; simpl.
  destruct (Execute exe w file) as [file1 [err |]]; simpl; [done |].
  specialize (IH file1). unfold events, outcome in IH.
  destruct (executeAll rest file1 w) as [[ev2 w2] r]. simpl in *.
  intros ->. f_equal. by apply IH.
Qed.

Lemma runPasses_final (executor : list (Pass * Executor Store)) (file : Store) w : final (runPasses executor file w) = w.
Proof.
  unfold runPasses, bind, final.
  pose proof (scanAll_final executor file w) as H1. unfold final in H1.
  destruct (scanAll executor file w) as [[ev1 w1] [e | file1]]; simpl in *; [done |].
  pose proof (executeAll_final executor file1 w1) as H2. unfold final in H2.
  destruct (executeAll executor file1 w1) as [[ev2 w2] r]; simpl in *. congruence.
Qed.

Lemma runPasses_prefix (executor : list (Pass * Executor Store)) (file : Store) w :
  events (runPasses executor file w) `prefix_of` batched (map fst executor).
Proof.
  unfold runPasses. rewrite bind_events. unfold batched.
  destruct (outcome (scanAll executor file w)) as [e | file1] eqn:E.
  - rewrite app_nil_r. etrans; [apply scanAll_prefix | apply prefix_app_r; done].
  - rewrite (scanAll_ok _ _ _ _ E). apply prefix_app, executeAll_prefix.
Qed.

Lemma runPasses_ok (executor : list (Pass * Executor Store)) (file : Store) w file' :
  outcome (runPasses executor file w) = inr file' ->
  events (runPasses executor file w) = batched (map fst executor).
Proof.
  unfold runPasses. rewrite bind_events. unfold batched.
  unfold bind, outcome at 1.
  destruct (scanAll executor file w) as [[ev1 w1] [e | file1]] eqn:E; simpl; [done |].
  pose proof (scanAll_ok executor file w file1) as H1. rewrite E in H1.
  unfold outcome, events in H1. simpl in H1.
  unfold outcome, events, final; simpl. rewrite H1 by done.
  destruct (executeAll executor file1 w1) as [[ev2 w2] r] eqn:E2; simpl.
  intros ->. f_equal.
  pose proof (executeAll_ok executor file1 w1 file') as H2.
  rewrite E2 in H2. by apply H2.
Qed.

Lemma runPasses_pass_events (executor : list (Pass * Executor Store)) (file : Store) w :
  passEvents (events (runPasses executor file w)) = events (runPasses executor file w).
Proof.
  destruct (runPasses_prefix executor file w) as [k Hk].
  apply passEvents_all.
  assert (Forall (fun ev => isPass ev = true) (batched (map fst executor))) as Hall.
  { unfold batched. apply Forall_app; split; apply Forall_forall;
      intros ev [p [-> _]]%list_elem_of_fmap; done. }
  rewrite Hk in Hall. by apply Forall_app in Hall as [Hall _].
Qed.

End OrchestratorFacts.

Section PassFacts.
Context {Store : Type} `{RT : Runtime Store}.

Lemma Emits_scanAll P (executor : list (Pass * Executor Store)) (file : Store) :
  (forall p, P (EvScan p)) -> Emits P (scanAll executor file).
Proof.
  intros HP. revert file.
  induction executor as [| [p scan] rest IH]; intros file; simpl.
  - apply Emits_ret.
  - apply Emits_bind; [by apply Emits_emit | intros _].
    apply Emits_bind; [apply Emits_getWorld | intros w].
    destruct (Scan scan w file) as [file' [err |]]; [apply Emits_throw | apply IH].
Qed.

Lemma Emits_executeAll P (executor : list (Pass * Executor Store)) (file : Store) :
  (forall p, P (EvExecute p)) -> Emits P (executeAll executor file).
Proof.
  intros HP. revert file.
  induction executor as [| [p exe] rest IH]; intros file; simpl.
  - apply Emits_ret.
  - apply Emits_bind; [by apply Emits_emit | intros _].
    apply Emits_bind; [apply Emits_getWorld | intros w].
    destruct (Execute exe w file) as [file' [err |]]; [apply Emits_throw | apply IH].
Qed.

End PassFacts.

(** The functions of the orchestrator, opened one layer at a time. *)
Ltac emits_open :=
  progress unfold processFile, processBody, prepare, setup, runPasses,
    initSelectors, selectInit, structSelectInit, emitResult, overwrite,
    showDiff, diff, backupFile, writeTempFile, readIn, os_Open, File_Stat,
    File_ReadAll, ioutil_TempFile, File_Chmod, File_Write, File_Close,
    ioutil_WriteFile, os_Rename, os_Remove, out_Write.

(** [Emits P m] for a computation [m] of the orchestrator, down to the
    events themselves, which are left as goals [P ev]. *)
Ltac emits :=
  repeat first
    [ emits_step
    | apply Emits_syscall
    | apply Emits_exec
    | apply Emits_scanAll; intro
    | apply Emits_executeAll; intro
    | emits_open ].

Section ProcessFileFacts.
Context {Store : Type} `{RT : Runtime Store}.

Lemma bind_outcome_inr {A B} (m : M A) (k : A -> M B) w b :
  outcome (bind m k w) = inr b ->
  exists a, outcome (m w) = inr a /\ outcome (k a (final (m w))) = inr b.
Proof.
  unfold bind, outcome, final.
  destruct (m w) as [[ev1 w1] [e | a]]; simpl; [done |].
  destruct (k a w1) as [[ev2 w2] r] eqn:E; simpl. intros ->.
  exists a. by rewrite E.
Qed.

Lemma bind_outcome {A B} (m : M A) (k : A -> M B) w :
  outcome (bind m k w)
  = match outcome (m w) with
    | inl e => inl e
    | inr a => outcome (k a (final (m w)))
    end.
Proof.
  unfold bind, outcome, final.
  destruct (m w) as [[ev1 w1] [e | a]]; simpl; [done |].
  by destruct (k a w1) as [[ev2 w2] r].
Qed.

Lemma bind_final {A B} (m : M A) (k : A -> M B) w :
  final (bind m k w)
  = match outcome (m w) with
    | inl e => final (m w)
    | inr a => final (k a (final (m w)))
    end.
Proof.
  unfold bind, outcome, final.
  destruct (m w) as [[ev1 w1] [e | a]]; simpl; [done |].
  by destruct (k a w1) as [[ev2 w2] r].
Qed.

(** The events no pass makes. *)
Definition NoPass (ev : Event) : Prop := isPass ev = false.

(** What a run shows of the passes: every completed run shows the whole
    batch, and every run a prefix of it. *)
Definition PassShape {A} (fl : Flags) (r : list Event * World * (error + A)) : Prop :=
  (forall x, outcome r = inr x ->
     exists executor, buildExecutors fl = inr executor
       /\ passEvents (events r) = batched (map fst executor))
  /\ (passEvents (events r) = []
      \/ exists executor, buildExecutors fl = inr executor
           /\ passEvents (events r) `prefix_of` batched (map fst executor)).

Lemma shape_after {A B} fl (m : M A) (k : A -> M B) :
  Emits NoPass m -> (forall a w, PassShape fl (k a w)) ->
  forall w, PassShape fl (bind m k w).
Proof.
  intros Hm Hk w. unfold PassShape.
  rewrite bind_events, bind_outcome, passEvents_app.
  rewrite (passEvents_none _ (Hm w)). simpl.
  destruct (outcome (m w)) as [e | a]; [split; [done | by left] |].
  apply Hk.
Qed.

Lemma shape_before {A B} fl (m : M A) (k : A -> M B) :
  (forall w, PassShape fl (m w)) -> (forall a, Emits NoPass (k a)) ->
  forall w, PassShape fl (bind m k w).
Proof.
  intros Hm Hk w. destruct (Hm w) as [Hok Hpre]. unfold PassShape.
  rewrite bind_events, bind_outcome, passEvents_app.
  destruct (outcome (m w)) as [e | a].
  - rewrite app_nil_r. split; [done | exact Hpre].
  - rewrite (passEvents_none _ (Hk a _)), app_nil_r.
    split; [intros _ _; by apply (Hok a) | exact Hpre].
Qed.

Lemma shape_deferring {A B} fl (d : M B) (m : M A) :
  (forall w, PassShape fl (m w)) -> Emits NoPass d ->
  forall w, PassShape fl (deferring d m w).
Proof.
  intros Hm Hd w. destruct (Hm w) as [Hok Hpre]. unfold PassShape.
  rewrite deferring_run, events_triple, outcome_triple.
  rewrite passEvents_app, (passEvents_none _ (Hd _)), app_nil_r.
  by split.
Qed.

Lemma setup_build fl filename readAll w src file executor :
  outcome (setup fl filename readAll w) = inr (src, file, executor) ->
  buildExecutors fl = inr executor.
Proof.
  unfold setup. intros H.
  apply bind_outcome_inr in H as (_ & _ & H).
  apply bind_outcome_inr in H as (src' & _ & H).
  apply bind_outcome_inr in H as (w' & _ & H).
  apply bind_outcome_inr in H as (file' & _ & H).
  apply bind_outcome_inr in H as (executor' & Hb & H).
  destruct (buildExecutors fl) as [e | ex]; [done |].
  unfold ret, liftResult, outcome in *. simpl in *. by simplify_eq.
Qed.

Lemma setup_no_pass fl filename readAll :
  Emits NoPass readAll -> Emits NoPass (setup fl filename readAll).
Proof. intros Hr. emits; done. Qed.

Lemma emitResult_no_pass fl filename src res perm :
  Emits NoPass (emitResult fl filename src res perm).
Proof. emits; done. Qed.

Lemma prepare_shape fl filename readAll :
  Emits NoPass readAll -> forall w, PassShape fl (prepare fl filename readAll w).
Proof.
  intros Hr w. unfold prepare, PassShape.
  rewrite bind_events, bind_outcome, passEvents_app.
  rewrite (passEvents_none _ (setup_no_pass fl filename readAll Hr w)). simpl.
  destruct (outcome (setup fl filename readAll w)) as [e | [[src file] executor]] eqn:E;
    [split; [done | by left] |].
  apply setup_build in E.
  rewrite bind_events, bind_outcome, passEvents_app, runPasses_pass_events.
  set (w1 := final (setup fl filename readAll w)).
  destruct (outcome (runPasses executor file w1)) as [e | file1] eqn:E1.
  - rewrite app_nil_r. split; [done |].
    right. exists executor. split; [done | apply runPasses_prefix].
  - assert (forall w2, passEvents (events ((do res <- liftResult (printer_Fprint file1);
                               ret (src, file1, res)) w2)) = []) as ->.
    { intros w2. apply passEvents_none. revert w2.
      change (Emits NoPass (do res <- liftResult (printer_Fprint file1); ret (src, file1, res))).
      emits. }
    rewrite app_nil_r, (runPasses_ok _ _ _ _ E1).
    split; [intros; by exists executor | right; by exists executor].
Qed.

Lemma processBody_shape fl filename readAll perm :
  Emits NoPass readAll -> forall w, PassShape fl (processBody fl filename readAll perm w).
Proof.
  intros Hr. unfold processBody. apply shape_before; [by apply prepare_shape |].
  intros [[src file] res]. apply emitResult_no_pass.
Qed.

Lemma processFile_shape fl filename inp stdin w :
  PassShape fl (processFile fl filename inp stdin w).
Proof.
  unfold processFile. destruct inp as [r |].
  - apply processBody_shape. emits; done.
  - revert w. apply shape_after; [emits; done | intros _ w].
    revert w. apply shape_deferring; [| emits; done].
    apply shape_after; [emits; done | intros perm w].
    apply processBody_shape. emits; done.
Qed.

End ProcessFileFacts.

(** ** The list of executors and the order of the calls *)

Section PassOrder.
Context {Store : Type} `{RT : Runtime Store}.

(** What [buildExecutors] returns when it returns a list. *)
Lemma buildExecutors_inv fl executor :
  buildExecutors fl = inr executor ->
  exists fillPart sortPart,
    executor = (Doctor, tagDoctor) :: fillPart ++ sortPart
                 ++ (if align fl then [(Align, newTagFmt)] else [])
    /\ (if decide (fill fl ≠ "") then
          exists filler, newTagFill (fill fl) = inr filler /\ fillPart = [(Fill, filler)]
        else fillPart = [])
    /\ (if tagSort fl then
          exists weights,
            parseWeights (strings_Split (tagSortWeight fl) "|") ∅ = inr weights
            /\ sortPart = [(Sort, newTagSort (strings_Split (tagSortOrder fl) "|") weights)]
        else sortPart = []).
Proof.
  unfold buildExecutors. intros H.
  destruct (decide (fill fl ≠ "")) as [Hf | Hf].
  - destruct (newTagFill (fill fl)) as [e | filler]; [done |].
    exists [(Fill, filler)].
    destruct (tagSort fl).
    + destruct (parseWeights _ _) as [e | weights]; [done |].
      eexists. split; [| split; [by eexists | by eexists]].
      simplify_eq. by destruct (align fl).
    + exists []. split; [| split; [by eexists | done]].
      simplify_eq. by destruct (align fl).
  - exists [].
    destruct (tagSort fl).
    + destruct (parseWeights _ _) as [e | weights]; [done |].
      eexists. split; [| split; [done | by eexists]].
      simplify_eq. by destruct (align fl).
    + exists []. split; [| done].
      simplify_eq. by destruct (align fl).
Qed.

Lemma buildExecutors_labels fl executor :
  buildExecutors fl = inr executor -> map fst executor = enabledPasses fl.
Proof.
  intros (fillPart & sortPart & -> & Hf & Hs)%buildExecutors_inv.
  unfold enabledPasses. simpl. f_equal. rewrite !map_app. f_equal; [| f_equal].
  - destruct (decide (fill fl ≠ "")); [by destruct Hf as (? & _ & ->) | by subst].
  - destruct (tagSort fl); [by destruct Hs as (? & _ & ->) | by subst].
  - by destruct (align fl).
Qed.


(** C1, as the code has it.  The calls of the passes that a run of
    [processFile] shows are a prefix of: the [Scan] of every enabled pass
    in the declared order, then the [Execute] of every enabled pass in the
    declared order; a run that returns no error shows all of them.  With
    the four passes on, that is Doctor.Scan, Fill.Scan, Sort.Scan,
    Align.Scan, Doctor.Execute, Fill.Execute, Sort.Execute,
    Align.Execute. *)
Theorem processFile_scans_then_executes fl filename inp stdin w :
  passEvents (events (processFile fl filename inp stdin w))
    `prefix_of` batched (enabledPasses fl)
  /\ (outcome (processFile fl filename inp stdin w) = inr tt ->
      passEvents (events (processFile fl filename inp stdin w))
      = batched (enabledPasses fl))
  /\ (outcome (processFile fl filename inp stdin w) = inr tt ->
      fill fl ≠ "" -> tagSort fl = true -> align fl = true ->
      passEvents (events (processFile fl filename inp stdin w))
      = [EvScan Doctor; EvScan Fill; EvScan Sort; EvScan Align;
         EvExecute Doctor; EvExecute Fill; EvExecute Sort; EvExecute Align]).
Proof.
  destruct (processFile_shape fl filename inp stdin w) as [Hok Hpre].
  assert (outcome (processFile fl filename inp stdin w) = inr tt ->
          passEvents (events (processFile fl filename inp stdin w))
          = batched (enabledPasses fl)) as Hall.
  { intros H. destruct (Hok _ H) as (executor & Hb & ->).
    by rewrite (buildExecutors_labels _ _ Hb). }
  split; [| split; [exact Hall |]].
  - destruct Hpre as [-> | (executor & Hb & Hp)]; [apply prefix_nil |].
    by rewrite <- (buildExecutors_labels _ _ Hb).
  - intros H Hf Hs Ha. rewrite (Hall H). unfold enabledPasses.
    rewrite Hs, Ha. by destruct (decide (fill fl ≠ "")).
Qed.

End PassOrder.

(** ** Configuration errors *)

Section KeepsFilesFacts.

Lemma KeepsFiles_ret {A} (a : A) : KeepsFiles (ret a).
Proof. done. Qed.

Lemma KeepsFiles_throw {A} e : KeepsFiles (@throw A e).
Proof. done. Qed.

Lemma KeepsFiles_emit ev : KeepsFiles (emit ev).
Proof. done. Qed.

Lemma KeepsFiles_getWorld : KeepsFiles getWorld.
Proof. done. Qed.

Lemma KeepsFiles_liftResult {A} (r : error + A) : KeepsFiles (liftResult r).
Proof. by destruct r. Qed.

Lemma KeepsFiles_set_fieldFilter f : KeepsFiles (modify (set_fieldFilter f)).
Proof. done. Qed.

Lemma KeepsFiles_set_structFieldSelect f : KeepsFiles (modify (set_structFieldSelect f)).
Proof. done. Qed.

End KeepsFilesFacts.

Ltac keeps_step :=
  match goal with
  | |- KeepsFiles (bind _ _) => apply KeepsFiles_bind; [ | intros ]
  | |- KeepsFiles (ret _) => apply KeepsFiles_ret
  | |- KeepsFiles (throw _) => apply KeepsFiles_throw
  | |- KeepsFiles (emit _) => apply KeepsFiles_emit
  | |- KeepsFiles getWorld => apply KeepsFiles_getWorld
  | |- KeepsFiles (liftResult _) => apply KeepsFiles_liftResult
  | |- KeepsFiles (modify (set_fieldFilter _)) => apply KeepsFiles_set_fieldFilter
  | |- KeepsFiles (modify (set_structFieldSelect _)) => apply KeepsFiles_set_structFieldSelect
  | |- KeepsFiles (os_Open _) => apply os_Open_keeps
  | |- KeepsFiles (File_Stat _) => apply File_Stat_keeps
  | |- KeepsFiles (File_ReadAll _) => apply File_ReadAll_keeps
  | |- KeepsFiles (File_Close _) => apply File_Close_keeps
  | |- KeepsFiles (if ?b then _ else _) => destruct b
  | |- KeepsFiles (match ?x with _ => _ end) => destruct x
  end.

Section ConfigurationFacts.
Context {Store : Type} `{RT : Runtime Store}.











Lemma setup_silent fl filename readAll :
  Emits Silent readAll -> Emits Silent (setup fl filename readAll).
Proof. intros Hr. emits; done. Qed.

Lemma setup_keeps fl filename readAll :
  KeepsFiles readAll -> KeepsFiles (setup fl filename readAll).
Proof.
  intros Hr. unfold setup, initSelectors, selectInit, structSelectInit.
  repeat keeps_step; done.
Qed.



End ConfigurationFacts.

(** ** The selectors *)

Section SelectorFacts.
Context {Store : Type} `{RT : Runtime Store}.

Lemma selectInit_ok expr inverse re w :
  regexp_Compile expr = inr re ->
  selectInit expr inverse w
  = ([EvCompile expr],
     set_fieldFilter (fun s => if inverse then negb (regexp_MatchString re s)
                               else regexp_MatchString re s) w,
     inr tt).
Proof.
  intros H. unfold selectInit, bind, emit, liftResult. rewrite H. by destruct inverse.
Qed.

Lemma structSelectInit_ok expr inverse re w :
  regexp_Compile expr = inr re ->
  structSelectInit expr inverse w
  = ([EvCompile expr],
     set_structFieldSelect (fun s => if inverse then negb (regexp_MatchString re s)
                                     else regexp_MatchString re s) w,
     inr tt).
Proof.
  intros H. unfold structSelectInit, bind, emit, liftResult. rewrite H. by destruct inverse.
Qed.

(** C8.  For a pattern that compiles, the field filter that [selectInit]
    installs with [inverse = true] answers, on every name, the negation
    of what the filter installed with [inverse = false] answers; and so
    do the two struct filters of [structSelectInit]. *)
Theorem selectInit_inverse_negates expr re w1 w2 :
  regexp_Compile expr = inr re ->
  (exists f g,
      fieldFilter (final (selectInit expr false w1)) = Some f
      /\ fieldFilter (final (selectInit expr true w2)) = Some g
      /\ forall s, g s = negb (f s))
  /\ (exists f g,
        structFieldSelect (final (structSelectInit expr false w1)) = Some f
        /\ structFieldSelect (final (structSelectInit expr true w2)) = Some g
        /\ forall s, g s = negb (f s)).
Proof.
  intros H. split.
  - rewrite !(selectInit_ok _ _ _ _ H). by eexists _, _.
  - rewrite !(structSelectInit_ok _ _ _ _ H). by eexists _, _.
Qed.

Lemma processFile_ignores_pattern fl p :
  inversePattern fl ≠ "" -> processFile (setPattern p fl) = processFile fl.
Proof.
  intros H. unfold processFile, processBody, prepare, setup, initSelectors. simpl.
  destruct (decide (inversePattern fl ≠ "")); [reflexivity | done].
Qed.

Lemma processFile_ignores_structPattern fl p :
  inverseStructPattern fl ≠ "" -> processFile (setStructPattern p fl) = processFile fl.
Proof.
  intros H. unfold processFile, processBody, prepare, setup, initSelectors. simpl.
  destruct (decide (inverseStructPattern fl ≠ "")); [reflexivity | done].
Qed.

Lemma processFile_compiles fl filename inp stdin :
  Emits (fun ev => forall e, ev = EvCompile e ->
                   e = fieldPattern fl \/ e = structPatternOf fl)
    (processFile fl filename inp stdin).
Proof.
  unfold fieldPattern, structPatternOf.
  emits; intros e' [=]; subst; auto.
Qed.

(** C9.  With a non-empty [-P], the run is the same whatever [-p] is: the
    field filter comes from the inverse pattern alone.  With a non-empty
    [-sP], the run is the same whatever [-sp] is.  The only patterns a
    run compiles are the two in force, so a superseded pattern is never
    handed to [regexp.Compile]. *)
Theorem inverse_pattern_supersedes fl p filename inp stdin w :
  (inversePattern fl ≠ "" ->
     fieldPattern fl = inversePattern fl
     /\ processFile (setPattern p fl) filename inp stdin w
        = processFile fl filename inp stdin w)
  /\ (inverseStructPattern fl ≠ "" ->
        structPatternOf fl = inverseStructPattern fl
        /\ processFile (setStructPattern p fl) filename inp stdin w
           = processFile fl filename inp stdin w)
  /\ Forall (fun ev => forall e, ev = EvCompile e ->
                       e = fieldPattern fl \/ e = structPatternOf fl)
       (events (processFile fl filename inp stdin w)).
Proof.
  split; [| split].
  - intros H. split.
    + unfold fieldPattern. by destruct (decide (inversePattern fl ≠ "")).
    + by rewrite processFile_ignores_pattern.
  - intros H. split.
    + unfold structPatternOf. by destruct (decide (inverseStructPattern fl ≠ "")).
    + by rewrite processFile_ignores_structPattern.
  - apply processFile_compiles.
Qed.

End SelectorFacts.

(** ** From the printed text to the output *)

Section ResultFacts.
Context {Store : Type} `{RT : Runtime Store}.

(** A call that only reads leaves the world as it is. *)
Lemma syscall_reads {A} c (run : FS -> error + (FS * A)) w :
  (forall fs fs' a, run fs = inr (fs', a) -> fs' = fs) ->
  final (syscall c run id w) = w.
Proof.
  intros Hrun. unfold syscall.
  destruct (os_fails (fsys w) c); [apply set_fsys_same |].
  destruct (run (fsys w)) as [e | [fs' a]] eqn:E; [done |].
  apply Hrun in E. subst. apply set_fsys_same.
Qed.

Lemma File_Close_run name w :
  events (File_Close name w) = [EvOs (CallClose name)] /\ final (File_Close name w) = w.
Proof.
  split; [apply syscall_events | apply syscall_reads; naive_solver].
Qed.

Lemma out_Write_run data w :
  out_Write data w
  = ([EvOs (CallOut data)], w,
     from_option inl (inr tt) (os_fails (fsys w) (CallOut data))).
Proof.
  unfold out_Write, syscall.
  destruct (os_fails (fsys w) (CallOut data)); simpl; unfold id;
    by rewrite set_fsys_same.
Qed.

Lemma os_Open_ok name w f :
  fsys w !! name = Some f -> os_fails (fsys w) (CallOpen name) = None ->
  os_Open name w = ([EvOs (CallOpen name)], w, inr tt).
Proof.
  intros Hf Ho. unfold os_Open, syscall. rewrite Ho, Hf. by rewrite set_fsys_same.
Qed.

Lemma File_Stat_ok name w f :
  fsys w !! name = Some f -> os_fails (fsys w) (CallStat name) = None ->
  File_Stat name w = ([EvOs (CallStat name)], w, inr (mode f)).
Proof.
  intros Hf Ho. unfold File_Stat, syscall. rewrite Ho, Hf. by rewrite set_fsys_same.
Qed.

(** Past the opening of the input, [processFile] is [processBody] and the
    deferred close. *)
Lemma processFile_entered fl filename inp stdin w perm readAll ev0 :
  entered filename inp w perm readAll ev0 ->
  processFile fl filename inp stdin w
  = (ev0 ++ events (processBody fl filename readAll perm w) ++ closing inp filename,
     final (processBody fl filename readAll perm w),
     outcome (processBody fl filename readAll perm w)).
Proof.
  unfold entered, processFile. destruct inp as [r |].
  - intros (-> & -> & ->). simpl. rewrite app_nil_r. apply run_eta.
  - intros (f & Hf & Ho & Hs & -> & -> & ->).
    rewrite (bind_ok _ _ _ _ _ _ (os_Open_ok _ _ _ Hf Ho)).
    rewrite deferring_run, events_triple, final_triple, outcome_triple.
    rewrite (bind_ok _ _ _ _ _ _ (File_Stat_ok _ _ _ Hf Hs)).
    rewrite events_triple, final_triple, outcome_triple.
    destruct (File_Close_run filename
                (final (processBody fl filename (File_ReadAll filename) (mode f) w)))
      as [-> ->].
    reflexivity.
Qed.

(** Past the printer, it is [emitResult] and the deferred close. *)
Lemma processFile_reaches fl filename inp stdin w src file res perm ev w1 :
  reaches fl filename inp w src file res perm ev w1 ->
  processFile fl filename inp stdin w
  = (ev ++ events (emitResult fl filename src res perm w1) ++ closing inp filename,
     final (emitResult fl filename src res perm w1),
     outcome (emitResult fl filename src res perm w1)).
Proof.
  intros (readAll & ev0 & ev1 & Hent & Hprep & ->).
  rewrite (processFile_entered _ _ _ _ _ _ _ _ Hent).
  unfold processBody. rewrite (bind_ok _ _ _ _ _ _ Hprep).
  rewrite events_triple, final_triple, outcome_triple.
  by rewrite <- !app_assoc.
Qed.

End ResultFacts.

Section OutputFacts.
Context {Store : Type} `{RT : Runtime Store}.

Lemma bind_ret_l {A B} (a : A) (k : A -> M B) w : bind (ret a) k w = k a w.
Proof. unfold bind, ret. by destruct (k a w) as [[ev2 w2] r]. Qed.

Lemma written_app (t1 t2 : list Event) : written (t1 ++ t2) = written t1 ++ written t2.
Proof. apply omap_app. Qed.

Lemma written_none (t : list Event) :
  Forall (fun ev => isOutput ev = false) t -> written t = [].
Proof.
  induction 1 as [| ev l Hev _ IH]; [done |].
  destruct ev as [| | | c | |]; try done; try exact IH.
  destruct c; try done; exact IH.
Qed.

Lemma prepare_no_output fl filename readAll :
  Emits (fun ev => isOutput ev = false) readAll ->
  Emits (fun ev => isOutput ev = false) (prepare fl filename readAll).
Proof. intros Hr. emits; done. Qed.

Lemma prepare_keeps fl filename readAll w :
  KeepsFiles readAll -> fsys (final (prepare fl filename readAll w)) = fsys w.
Proof.
  intros Hr. unfold prepare. rewrite bind_final.
  pose proof (setup_keeps fl filename readAll Hr w) as Hs.
  destruct (outcome (setup fl filename readAll w)) as [e | [[src file] executor]]; [done |].
  rewrite bind_final, runPasses_final.
  destruct (outcome (runPasses _ _ _)) as [e | file1]; [done |].
  by rewrite bind_final, final_liftResult, outcome_liftResult;
    destruct (printer_Fprint file1).
Qed.

Lemma prepare_printed fl filename readAll w src file res :
  outcome (prepare fl filename readAll w) = inr (src, file, res) ->
  printer_Fprint file = inr res.
Proof.
  unfold prepare. intros H.
  apply bind_outcome_inr in H as ([[src0 file0] executor] & _ & H).
  apply bind_outcome_inr in H as (file1 & _ & H).
  apply bind_outcome_inr in H as (res1 & Hp & H).
  rewrite outcome_liftResult in Hp. unfold ret, outcome in H. simpl in H.
  by simplify_eq.
Qed.

Lemma entered_reader filename inp w perm readAll ev0 :
  entered filename inp w perm readAll ev0 ->
  Emits Silent readAll /\ KeepsFiles readAll /\ Forall Silent ev0.
Proof.
  unfold entered. destruct inp as [r |].
  - intros (_ & -> & ->). split; [emits; done |].
    split; [unfold readIn; repeat keeps_step | constructor].
  - intros (f & _ & _ & _ & _ & -> & ->). split; [emits; done |].
    split; [repeat keeps_step | by repeat constructor].
Qed.

(** Up to line 223 the run has written nothing and touched no file, and
    the text it holds is what the printer made of the heap. *)
Lemma reaches_facts fl filename inp w src file res perm ev w1 :
  reaches fl filename inp w src file res perm ev w1 ->
  printer_Fprint file = inr res /\ written ev = [] /\ fsys w1 = fsys w.
Proof.
  intros (readAll & ev0 & ev1 & Hent & Hprep & ->).
  destruct (entered_reader _ _ _ _ _ _ Hent) as (Hev & Hfs & Hev0).
  split; [| split].
  - apply (prepare_printed fl filename readAll w src). by rewrite Hprep.
  - rewrite written_app, !written_none; [done | |].
    + pose proof (prepare_no_output fl filename readAll) as Hp.
      specialize (Hp (fun w => Forall_impl _ _ _ (Hev w) (fun _ H => proj2 H)) w).
      by rewrite Hprep in Hp.
    + eapply Forall_impl; [exact Hev0 | by intros ? []].
  - pose proof (prepare_keeps fl filename readAll w Hfs) as Hk.
    by rewrite Hprep in Hk.
Qed.

Lemma emitResult_default fl filename src res perm w :
  listFiles fl = false -> write fl = false -> doDiff fl = false ->
  emitResult fl filename src res perm w = out_Write res w.
Proof.
  intros Hl Hw Hd. unfold emitResult. rewrite Hl, Hw, Hd. simpl.
  destruct (negb (String.eqb src res)); unfold bind, ret; simpl;
    by destruct (out_Write res w) as [[ev2 w2] r].
Qed.

Lemma emitResult_same fl filename src perm w :
  emitResult fl filename src src perm w
  = (if negb (listFiles fl) && negb (write fl) && negb (doDiff fl)
     then out_Write src else ret tt) w.
Proof. unfold emitResult. rewrite String.eqb_refl. simpl. apply bind_ret_l. Qed.

(** In the default mode the run writes the printed text, once. *)
Lemma processFile_default_output fl filename inp stdin w src file res perm ev w1 :
  reaches fl filename inp w src file res perm ev w1 ->
  listFiles fl = false -> write fl = false -> doDiff fl = false ->
  events (processFile fl filename inp stdin w)
  = ev ++ [EvOs (CallOut res)] ++ closing inp filename
  /\ written (events (processFile fl filename inp stdin w)) = [res]
  /\ fsys (final (processFile fl filename inp stdin w)) = fsys w.
Proof.
  intros Hr Hl Hwr Hd.
  destruct (reaches_facts _ _ _ _ _ _ _ _ _ _ Hr) as (Hp & Hw & Hfs).
  rewrite (processFile_reaches _ _ _ stdin _ _ _ _ _ _ _ Hr).
  rewrite events_triple, final_triple.
  assert (written (closing inp filename) = []) as Hc by by destruct inp.
  rewrite (emitResult_default _ _ _ _ _ _ Hl Hwr Hd), out_Write_run.
  rewrite events_triple, final_triple. split; [done |].
  by rewrite !written_app, Hw, Hc.
Qed.

(** C6, as the code has it.  What a run hands to [out] in the default
    mode is the text the printer made of the heap after the passes, byte
    for byte and nothing else, and no file is touched.  When that text
    equals the source, the default mode writes the source back exactly,
    and the modes [-l], [-w] and [-d] write nothing and touch no file. *)
Theorem output_is_the_printed_text fl filename inp stdin w src file res perm ev w1 :
  reaches fl filename inp w src file res perm ev w1 ->
  printer_Fprint file = inr res
  /\ (listFiles fl = false -> write fl = false -> doDiff fl = false ->
      events (processFile fl filename inp stdin w)
      = ev ++ [EvOs (CallOut res)] ++ closing inp filename
      /\ written (events (processFile fl filename inp stdin w)) = [res]
      /\ fsys (final (processFile fl filename inp stdin w)) = fsys w)
  /\ (res = src ->
      (listFiles fl = false -> write fl = false -> doDiff fl = false ->
       written (events (processFile fl filename inp stdin w)) = [src])
      /\ (listFiles fl || write fl || doDiff fl = true ->
          events (processFile fl filename inp stdin w) = ev ++ closing inp filename
          /\ outcome (processFile fl filename inp stdin w) = inr tt
          /\ fsys (final (processFile fl filename inp stdin w)) = fsys w)).
Proof.
  intros Hr. destruct (reaches_facts _ _ _ _ _ _ _ _ _ _ Hr) as (Hp & Hw & Hfs).
  split; [done | split; [by apply (processFile_default_output _ _ _ _ _ src file _ perm _ w1) |]].
  intros ->. split.
  - intros Hl Hwr Hd. by apply (processFile_default_output _ _ _ _ _ _ _ _ _ _ _ Hr).
  - intros Hmode. rewrite (processFile_reaches _ _ _ stdin _ _ _ _ _ _ _ Hr).
    rewrite events_triple, final_triple, outcome_triple, emitResult_same.
    destruct (listFiles fl), (write fl), (doDiff fl); simpl in *; try done;
      by rewrite app_nil_l.
Qed.

End OutputFacts.

(** ** The diff *)

Section DiffFacts.
Context {Store : Type} `{RT : Runtime Store}.

Lemma deferring_events {A B} (d : M B) (m : M A) w :
  events (deferring d m w) = events (m w) ++ events (d (final (m w))).
Proof. by rewrite deferring_run. Qed.

Lemma deferring_outcome {A B} (d : M B) (m : M A) w :
  outcome (deferring d m w) = outcome (m w).
Proof. by rewrite deferring_run. Qed.

Lemma deferring_final {A B} (d : M B) (m : M A) w :
  final (deferring d m w) = final (d (final (m w))).
Proof. by rewrite deferring_run. Qed.

Lemma bind_assoc {A B C} (m : M A) (k1 : A -> M B) (k2 : B -> M C) w :
  bind (bind m k1) k2 w = bind m (fun a => bind (k1 a) k2) w.
Proof.
  unfold bind. destruct (m w) as [[ev1 w1] [e | a]]; [done |].
  destruct (k1 a w1) as [[ev2 w2] [e | b]]; [done |].
  destruct (k2 b w2) as [[ev3 w3] r]. by rewrite app_assoc.
Qed.

Lemma bind_ext {A B} (m : M A) (k1 k2 : A -> M B) w :
  (forall a w', k1 a w' = k2 a w') -> bind m k1 w = bind m k2 w.
Proof.
  intros H. unfold bind. destruct (m w) as [[ev1 w1] [e | a]]; [done |].
  by rewrite H.
Qed.

Lemma filter_none {A} (f : A -> bool) (t : list A) :
  Forall (fun x => f x = false) t -> List.filter f t = [].
Proof. induction 1 as [| x l Hx _ IH]; [done |]. simpl. by rewrite Hx. Qed.

Lemma os_Remove_events name w : events (os_Remove name w) = [EvOs (CallRemove name)].
Proof. apply syscall_events. Qed.

(** The end of [diff], after the subprocess has returned. *)
Lemma diff_tail_run data err filename w :
  events ((if (0 <? String.length data)%nat
           then liftResult (replaceTempFilename data filename)
           else match err with
                | Some e => throw e
                | None => ret data
                end) w) = []
  /\ outcome ((if (0 <? String.length data)%nat
               then liftResult (replaceTempFilename data filename)
               else match err with
                    | Some e => throw e
                    | None => ret data
                    end) w) = diffOutcome data err filename.
Proof.
  unfold diffOutcome. destruct (0 <? String.length data)%nat.
  - by rewrite events_liftResult, outcome_liftResult.
  - by destruct err.
Qed.

Lemma diff_run b1 b2 filename w f1 f2 :
  outcome (writeTempFile "" "gofmt" b1 w) = inr f1 ->
  outcome (writeTempFile "" "gofmt" b2 (final (writeTempFile "" "gofmt" b1 w))) = inr f2 ->
  let wb := final (writeTempFile "" "gofmt" b2 (final (writeTempFile "" "gofmt" b1 w))) in
  let out := exec_CombinedOutput (fsys wb) diffCmd ["-u"; f1; f2] in
  events (diff b1 b2 filename w)
  = events (writeTempFile "" "gofmt" b1 w)
    ++ events (writeTempFile "" "gofmt" b2 (final (writeTempFile "" "gofmt" b1 w)))
    ++ [EvExec diffCmd ["-u"; f1; f2]; EvOs (CallRemove f2); EvOs (CallRemove f1)]
  /\ outcome (diff b1 b2 filename w) = diffOutcome out.1 out.2 filename.
Proof.
  intros H1 H2 wb out. unfold diff.
  rewrite bind_events, bind_outcome, H1.
  rewrite deferring_events, deferring_outcome, os_Remove_events.
  rewrite bind_events, bind_outcome, H2.
  rewrite deferring_events, deferring_outcome, os_Remove_events.
  rewrite bind_events, bind_outcome. fold wb.
  change (outcome (exec_Command diffCmd ["-u"; f1; f2] wb)) with (@inr error _ out).
  change (events (exec_Command diffCmd ["-u"; f1; f2] wb))
    with [EvExec diffCmd ["-u"; f1; f2]].
  change (final (exec_Command diffCmd ["-u"; f1; f2] wb)) with wb.
  destruct out as [data err]. simpl.
  destruct (diff_tail_run data err filename wb) as [-> ->].
  split; [| done]. by rewrite <- !app_assoc.
Qed.

Lemma showDiff_run filename src res w :
  events (showDiff filename src res w)
  = events (diff src res filename w)
    ++ match outcome (diff src res filename w) with
       | inl _ => []
       | inr data => [EvStdout (diffHeader filename); EvOs (CallOut data)]
       end
  /\ outcome (showDiff filename src res w)
     = match outcome (diff src res filename w) with
       | inl e => inl (ErrComputingDiff e)
       | inr _ => inr tt
       end.
Proof.
  unfold showDiff. rewrite bind_events, bind_outcome, attempt_run.
  rewrite events_triple, outcome_triple, final_triple.
  destruct (outcome (diff src res filename w)) as [e | data]; [done |].
  rewrite !bind_events, !bind_outcome, attempt_run, out_Write_run.
  by rewrite !events_triple, !outcome_triple.
Qed.

(** With [-d] and a changed file, the result of the run is the result of
    [showDiff], provided the branches of [-l] and [-w] went through. *)
Lemma emitResult_diff fl filename src res perm w1 :
  res ≠ src -> doDiff fl = true ->
  outcome (listAndWrite fl filename src res perm w1) = inr tt ->
  let w2 := final (listAndWrite fl filename src res perm w1) in
  events (emitResult fl filename src res perm w1)
  = events (listAndWrite fl filename src res perm w1)
    ++ events (showDiff filename src res w2)
  /\ outcome (emitResult fl filename src res perm w1)
     = outcome (showDiff filename src res w2).
Proof.
  intros Hne Hd Hlw w2. unfold emitResult.
  assert (String.eqb src res = false) as -> by (apply String.eqb_neq; congruence).
  rewrite Hd, andb_false_r. simpl.
  match goal with |- context [events (?m w1)] =>
    assert (m w1 = bind (listAndWrite fl filename src res perm)
                     (fun _ => bind (showDiff filename src res) (fun _ => ret tt)) w1)
      as -> end.
  { unfold listAndWrite. rewrite !bind_assoc. apply bind_ext. intros _ w.
    by rewrite bind_assoc. }
  rewrite bind_events, bind_outcome, Hlw. fold w2.
  rewrite bind_events, bind_outcome.
  destruct (outcome (showDiff filename src res w2)) as [e | []]; by rewrite ?app_nil_r.
Qed.

End DiffFacts.

Section DiffReporting.
Context {Store : Type} `{RT : Runtime Store}.

Lemma writeTempFile_plain dir prefix data :
  Emits (fun ev => isExec ev = false /\ isOutput ev = false)
    (writeTempFile dir prefix data).
Proof. emits; done. Qed.

(** C7, as the code has it.  In a run with [-d] whose printed text
    differs from the source and that gets to line 246 with the two
    temporary files written, the subprocess runs once.  Its error is
    surfaced, as a "computing diff" error and with nothing written, only
    when it comes with no output at all.  When there is output, the error
    is dropped: the run's result is then decided by the shape of the
    output alone, which is written as the diff if it has three lines. *)
Theorem diff_failure_reporting fl filename inp stdin w src file res perm ev w1 f1 f2 :
  reaches fl filename inp w src file res perm ev w1 ->
  doDiff fl = true -> res ≠ src ->
  outcome (listAndWrite fl filename src res perm w1) = inr tt ->
  let w2 := final (listAndWrite fl filename src res perm w1) in
  outcome (writeTempFile "" "gofmt" src w2) = inr f1 ->
  let wa := final (writeTempFile "" "gofmt" src w2) in
  outcome (writeTempFile "" "gofmt" res wa) = inr f2 ->
  let wb := final (writeTempFile "" "gofmt" res wa) in
  let out := exec_CombinedOutput (fsys wb) diffCmd ["-u"; f1; f2] in
  let run := processFile fl filename inp stdin w in
  events run
  = ev ++ events (listAndWrite fl filename src res perm w1)
      ++ events (showDiff filename src res w2) ++ closing inp filename
  /\ execs (events (showDiff filename src res w2)) = [EvExec diffCmd ["-u"; f1; f2]]
  /\ outcome run
     = match diffOutcome out.1 out.2 filename with
       | inl e => inl (ErrComputingDiff e)
       | inr _ => inr tt
       end
  /\ List.filter isOutput (events (showDiff filename src res w2))
     = match diffOutcome out.1 out.2 filename with
       | inl _ => []
       | inr data => [EvStdout (diffHeader filename); EvOs (CallOut data)]
       end
  /\ (out.1 = "" -> forall e, out.2 = Some e ->
      diffOutcome out.1 out.2 filename = inl e)
  /\ (out.1 ≠ "" ->
      diffOutcome out.1 out.2 filename = replaceTempFilename out.1 filename).
Proof.
  intros Hr Hd Hne Hlw w2 H1 wa H2 wb out run. unfold run.
  rewrite (processFile_reaches _ _ _ stdin _ _ _ _ _ _ _ Hr).
  rewrite events_triple, outcome_triple.
  destruct (emitResult_diff fl filename src res perm w1 Hne Hd Hlw) as [-> ->].
  fold w2.
  destruct (showDiff_run filename src res w2) as [Hev ->].
  destruct (diff_run src res filename w2 f1 f2 H1 H2) as [Hdev Hdo].
  fold wa wb out in Hdev, Hdo. rewrite Hdo. rewrite Hev, Hdev, Hdo.
  pose proof (writeTempFile_plain "" "gofmt" src w2) as Hp1.
  pose proof (writeTempFile_plain "" "gofmt" res wa) as Hp2.
  split; [by rewrite <- !app_assoc | split; [| split; [done | split; [| split]]]].
  - unfold execs. rewrite !List.filter_app.
    rewrite (filter_none isExec (events (writeTempFile "" "gofmt" src w2)))
      by (eapply Forall_impl; [exact Hp1 | by intros ? []]).
    rewrite (filter_none isExec (events (writeTempFile "" "gofmt" res wa)))
      by (eapply Forall_impl; [exact Hp2 | by intros ? []]).
    by destruct (diffOutcome out.1 out.2 filename).
  - rewrite !List.filter_app.
    rewrite (filter_none isOutput (events (writeTempFile "" "gofmt" src w2)))
      by (eapply Forall_impl; [exact Hp1 | by intros ? []]).
    rewrite (filter_none isOutput (events (writeTempFile "" "gofmt" res wa)))
      by (eapply Forall_impl; [exact Hp2 | by intros ? []]).
    by destruct (diffOutcome out.1 out.2 filename).
  - intros Hdata e He. unfold diffOutcome. by rewrite Hdata, He.
  - intros Hdata. unfold diffOutcome. by destruct out.1.
Qed.

End DiffReporting.

(** ** The backup and the overwrite *)

Section WriteFacts.
Context {Store : Type} `{RT : Runtime Store}.

Lemma syscall_inr {A} c (run : FS -> error + (FS * A)) torn w a :
  outcome (syscall c run torn w) = inr a ->
  exists fs', os_fails (fsys w) c = None /\ run (fsys w) = inr (fs', a)
    /\ final (syscall c run torn w) = set_fsys fs' w.
Proof.
  unfold syscall. destruct (os_fails (fsys w) c); [done |].
  destruct (run (fsys w)) as [e | [fs' a']]; [done |].
  intros [= ->]. by exists fs'.
Qed.

Lemma attempt_outcome {A} (m : M A) w : outcome (attempt m w) = inr (outcome (m w)).
Proof. by rewrite attempt_run. Qed.

Lemma attempt_final {A} (m : M A) w : final (attempt m w) = final (m w).
Proof. by rewrite attempt_run. Qed.


Lemma ioutil_TempFile_inr dir prefix w name :
  outcome (ioutil_TempFile dir prefix w) = inr name ->
  name = os_TempName (fsys w) dir prefix
  /\ fsys w !! name = None
  /\ final (ioutil_TempFile dir prefix w)
     = set_fsys (<[name := mkFile 384 ""]> (fsys w)) w.
Proof.
  unfold ioutil_TempFile. intros (fs1 & _ & Hrun & ->)%syscall_inr.
  cbv zeta in Hrun.
  destruct (fsys w !! os_TempName (fsys w) dir prefix) eqn:Hfresh; [done |].
  by simplify_eq.
Qed.


Lemma File_Write_inr name data w :
  outcome (File_Write name data w) = inr tt ->
  exists f, fsys w !! name = Some f
    /\ final (File_Write name data w)
       = set_fsys (<[name := mkFile (mode f) (content f +:+ data)]> (fsys w)) w.
Proof.
  unfold File_Write. intros (fs1 & _ & Hrun & ->)%syscall_inr.
  destruct (fsys w !! name) as [f |]; [| done]. exists f. by simplify_eq.
Qed.

















End WriteFacts.

(** ** The tag grammar: parse and serialize *)

Module TagGrammarFacts.
Import TagGrammar.

Lemma append_nil_l (s : string) : "" +:+ s = s.
Proof. reflexivity. Qed.

Lemma append_cons c (a b : string) : String c a +:+ b = String c (a +:+ b).
Proof. reflexivity. Qed.

Lemma append_nil_r (s : string) : s +:+ "" = s.
Proof. induction s as [| c s IH]; [done |]. by rewrite append_cons, IH. Qed.

Lemma append_assoc (a b c : string) : (a +:+ b) +:+ c = a +:+ (b +:+ c).
Proof. induction a as [| x a IH]; [done |]. by rewrite !append_cons, IH. Qed.

Lemma snoc_append (s : string) c (r : string) : snoc s c +:+ r = s +:+ String c r.
Proof. unfold snoc. by rewrite append_assoc. Qed.

Ltac string_norm :=
  repeat first [ rewrite append_assoc | rewrite snoc_append | rewrite append_cons
               | rewrite append_nil_r | rewrite append_nil_l ];
  done.

Lemma serialize_snoc acc e : serialize (acc ++ [e]) = lead acc +:+ entryText e.
Proof.
  unfold lead, serialize. induction acc as [| a acc IH]; [done |].
  destruct acc as [| b acc].
  - simpl. by rewrite !append_assoc.
  - change (bytes_Join (map entryText ((a :: b :: acc) ++ [e])) " ")
      with (entryText a +:+ " " +:+ bytes_Join (map entryText ((b :: acc) ++ [e])) " ").
    rewrite IH.
    change (bytes_Join (map entryText (a :: b :: acc)) " ")
      with (entryText a +:+ " " +:+ bytes_Join (map entryText (b :: acc)) " ").
    by rewrite !append_assoc.
Qed.

Section RoundTrip.
Variable unclosedBracket : string -> bool.

Lemma parseFrom_consumed s ph acc es :
  (ph = AfterEntry -> acc ≠ []) ->
  parseFrom unclosedBracket s ph acc = inr es ->
  serialize es = consumed acc ph +:+ s.
Proof.
  revert ph acc. induction s as [| c r IH]; intros ph acc Hwf H.
  - destruct ph; simplify_eq/=. by rewrite append_nil_r.
  - destruct ph as [k | k | k body | k body |]; simpl in H.
    + destruct (Ascii.eqb_spec c ":") as [-> | _].
      * destruct (String.eqb k ""); [done |].
        apply IH in H as ->; [| done]. simpl. string_norm.
      * destruct (isKeyChar c); [| done].
        apply IH in H as ->; [| done]. simpl. string_norm.
    + destruct (Ascii.eqb_spec c dquote) as [-> | _]; [| done].
      apply IH in H as ->; [| done]. simpl. string_norm.
    + destruct (Ascii.eqb_spec c dquote) as [-> | _].
      * destruct (unclosedBracket body); [done |].
        apply IH in H as ->; [| by intros _ [_ ?]%app_eq_nil].
        simpl. rewrite serialize_snoc. unfold entryText. simpl. string_norm.
      * destruct (Ascii.eqb c backslash);
          (apply IH in H as ->; [| done]); simpl; string_norm.
    + apply IH in H as ->; [| done]. simpl. string_norm.
    + destruct (Ascii.eqb_spec c " ") as [-> | _]; [| done].
      apply IH in H as ->; [| done]. simpl. unfold lead.
      destruct acc; [by destruct Hwf |]. string_norm.
Qed.

(** C5.  For a tag [t] that [parse] accepts, [serialize] of the entries
    that [parse] returns is [t] itself, byte for byte: a well-formed tag
    has exactly one space between two entries and none at the end, so
    there is nothing to normalise; and [parse] reads the serialized text
    back to the same entries. *)
Theorem serialize_parse t es :
  parse unclosedBracket t = inr es ->
  serialize es = t /\ parse unclosedBracket (serialize es) = inr es.
Proof.
  intros H. assert (serialize es = t) as Hs.
  { destruct t as [| c r]; [by simplify_eq/= |].
    unfold parse in H. by apply parseFrom_consumed in H as ->. }
  by rewrite Hs.
Qed.
End RoundTrip.

End TagGrammarFacts.

(** ** What a run makes of the result of the passes *)

Section PassErrors.
Context {Store : Type} `{RT : Runtime Store}.





End PassErrors.

(** ** The doctor *)

Module TagDoctorFacts.
Import TagGrammar TagDoctor.

Section Fields.
Variable unclosedBracket : string -> bool.
Variable bracketCloser : string.




End Fields.

Section Run.
Context `{RT : Runtime Store}.
Variable unclosedBracket : string -> bool.
Variable bracketCloser : string.
Hypothesis tagDoctor_spec : tagDoctor = executor unclosedBracket bracketCloser.






End Run.

End TagDoctorFacts.

(** * The rest of [gofmt.go] *)

(** ** Strings *)

Lemma cut_None s sep : cut s sep = None <-> countByte s sep = 0%nat.
Proof.
  induction s as [| d r IH]; simpl; [done |].
  destruct (Ascii.eqb d sep); [done |].
  destruct (cut r sep) as [[a b] |]; simpl; split; try done.
  - intros H. apply IH in H. done.
  - intros _. by apply IH.
Qed.

Lemma cut_Some s sep a b :
  cut s sep = Some (a, b) -> s = a +:+ String sep b /\ countByte a sep = 0%nat.
Proof.
  revert a. induction s as [| d r IH]; intros a; simpl; [done |].
  destruct (Ascii.eqb d sep) eqn:E.
  - intros [= <- <-]. apply Ascii.eqb_eq in E as ->. done.
  - destruct (cut r sep) as [[a' b'] |]; [| done].
    intros [= <- <-]. destruct (IH a' eq_refl) as [-> H]. simpl. by rewrite E.
Qed.

Lemma cut_app a b sep :
  countByte a sep = 0%nat -> cut (a +:+ String sep b) sep = Some (a, b).
Proof.
  induction a as [| d r IH]; simpl.
  - by rewrite Ascii.eqb_refl.
  - destruct (Ascii.eqb d sep); [done |]. intros H. by rewrite IH.
Qed.

Lemma countByte_app a b c : countByte (a +:+ b) c = (countByte a c + countByte b c)%nat.
Proof. induction a as [| d r IH]; simpl; [done |]. rewrite IH. lia. Qed.

Lemma fromLastByte_None s c : fromLastByte s c = None <-> countByte s c = 0%nat.
Proof.
  induction s as [| d r IH]; simpl; [done |].
  destruct (fromLastByte r c) as [t |].
  - split; [done |]. intros H. destruct (Ascii.eqb d c); [done |].
    apply IH in H. done.
  - destruct (Ascii.eqb d c); [done |]. split; [| done]. intros _. by apply IH.
Qed.

Lemma fromLastByte_app p s c :
  countByte s c = 0%nat -> fromLastByte (p +:+ String c s) c = Some (String c s).
Proof.
  intros Hs. induction p as [| d r IH]; simpl.
  - apply fromLastByte_None in Hs. by rewrite Hs, Ascii.eqb_refl.
  - by rewrite IH.
Qed.

Lemma string_app_assoc (a b c : string) : (a +:+ b) +:+ c = a +:+ (b +:+ c).
Proof.
  induction a as [| x a IH]; [done |].
  change (String x ((a +:+ b) +:+ c) = String x (a +:+ (b +:+ c))). by rewrite IH.
Qed.

(** ** [replaceTempFilename] *)

Section DiffHeaders.
Context {Store : Type} `{RT : Runtime Store}.

Lemma bytes_SplitN_3 s :
  bytes_SplitN s newline 3
  = match cut s newline with
    | None => [s]
    | Some (a, b) =>
        match cut b newline with
        | None => [a; b]
        | Some (a', b') => [a; a'; b']
        end
    end.
Proof.
  simpl. destruct (cut s newline) as [[a b] |]; [| done].
  by destruct (cut b newline) as [[a' b'] |].
Qed.

Lemma replaceTempFilename_lines l0 l1 rest filename :
  countByte l0 newline = 0%nat -> countByte l1 newline = 0%nat ->
  replaceTempFilename (l0 +:+ String newline (l1 +:+ String newline rest)) filename
  = inr (("--- " +:+ (filepath_ToSlash filename +:+ ".orig")
            +:+ default "" (fromLastByte l0 tab))
         +:+ String newline ""
         +:+ ("+++ " +:+ filepath_ToSlash filename +:+ default "" (fromLastByte l1 tab))
         +:+ String newline "" +:+ rest).
Proof.
  intros H0 H1. unfold replaceTempFilename.
  rewrite bytes_SplitN_3, (cut_app _ _ _ H0), (cut_app _ _ _ H1). reflexivity.
Qed.

(** X1.  [replaceTempFilename] on the output of [diff -u]: in each of the
    first two lines the name of the temporary file gives way to the name
    of the source (with [.orig] in the first), what follows the last tab
    of the line (the time stamp) stays, and so does every byte after the
    second line. *)
Theorem replaceTempFilename_keeps_timestamps n0 t0 n1 t1 body filename :
  countByte n0 newline = 0%nat -> countByte t0 newline = 0%nat -> countByte t0 tab = 0%nat ->
  countByte n1 newline = 0%nat -> countByte t1 newline = 0%nat -> countByte t1 tab = 0%nat ->
  replaceTempFilename
    ((n0 +:+ String tab t0) +:+ String newline ((n1 +:+ String tab t1) +:+ String newline body))
    filename
  = inr (("--- " +:+ filepath_ToSlash filename +:+ ".orig" +:+ String tab t0)
         +:+ String newline (("+++ " +:+ filepath_ToSlash filename +:+ String tab t1)
         +:+ String newline body)).
Proof.
  intros Hn0 Ht0 Hb0 Hn1 Ht1 Hb1.
  rewrite replaceTempFilename_lines.
  - rewrite !fromLastByte_app by done. simpl. f_equal.
    rewrite !string_app_assoc. simpl. reflexivity.
  - rewrite countByte_app. simpl. rewrite Hn0, Ht0. done.
  - rewrite countByte_app. simpl. rewrite Hn1, Ht1. done.
Qed.

(** X2.  [replaceTempFilename] fails exactly on an input with fewer than
    two newlines, and its only error is the unexpected-diff one for the
    file. *)
Theorem replaceTempFilename_error data filename e :
  replaceTempFilename data filename = inl e
  <-> (countByte data newline < 2)%nat /\ e = ErrUnexpectedDiff filename.
Proof.
  unfold replaceTempFilename. rewrite bytes_SplitN_3.
  destruct (cut data newline) as [[a b] |] eqn:E0.
  - apply cut_Some in E0 as [-> Ha].
    destruct (cut b newline) as [[a' b'] |] eqn:E1.
    + apply cut_Some in E1 as [-> Ha']. simpl.
      rewrite countByte_app. simpl. rewrite countByte_app. simpl.
      split; [done | lia].
    + apply cut_None in E1. simpl. rewrite countByte_app. simpl.
      rewrite E1, Ha. split; [intros [= <-]; split; [lia | done] |].
      by intros [_ ->].
  - apply cut_None in E0. simpl. rewrite E0.
    split; [intros [= <-]; split; [lia | done] | by intros [_ ->]].
Qed.

End DiffHeaders.

(** ** The sort weights *)

Section Weights.
Context {Store : Type} `{RT : Runtime Store}.

Lemma keyIntSegment_entry seg :
  keyIntSegment seg = true <-> is_Some (segmentEntry seg).
Proof.
  unfold keyIntSegment, segmentEntry.
  destruct (strings_Split (strings_TrimSpace seg) "=") as [| k [| v [| ? ?]]];
    try (split; [done | by intros [? ?]]).
  destruct (strconv_Atoi (strings_TrimSpace v)); split; try done; by intros [? ?].
Qed.

Lemma parseWeights_cons seg rest weights :
  parseWeights (seg :: rest) weights
  = if decide (blankSegment seg) then parseWeights rest weights
    else match strings_Split (strings_TrimSpace seg) "=" with
         | [k; v] =>
             match strconv_Atoi (strings_TrimSpace v) with
             | inl err => inl (ErrSortWeightAtoi (strings_TrimSpace v) err)
             | inr val => parseWeights rest (<[strings_TrimSpace k := val]> weights)
             end
         | _ => inl ErrSortWeightFormat
         end.
Proof.
  simpl. unfold blankSegment.
  destruct (decide (strings_TrimSpace (strings_TrimSpace seg) = "")); [done |].
  destruct (strings_Split (strings_TrimSpace seg) "=") as [| k [| v [| ? ?]]]; done.
Qed.

Lemma parseWeights_fold segs weights weights' :
  parseWeights segs weights = inr weights' -> weights' = foldl addWeight weights segs.
Proof.
  revert weights. induction segs as [| seg rest IH]; intros weights.
  - by intros [= ->].
  - rewrite parseWeights_cons. simpl. unfold addWeight at 2, segmentEntry.
    destruct (decide (blankSegment seg)); [apply IH |].
    destruct (strings_Split (strings_TrimSpace seg) "=") as [| k [| v [| ? ?]]]; try done.
    destruct (strconv_Atoi (strings_TrimSpace v)); [done | apply IH].
Qed.

(** X3.  The weights parse exactly when every piece of the argument is
    blank or of the form key=integer. *)
Theorem parseWeights_succeeds segs weights :
  (exists weights', parseWeights segs weights = inr weights')
  <-> Forall (fun seg => blankSegment seg \/ keyIntSegment seg = true) segs.
Proof.
  revert weights. induction segs as [| seg rest IH]; intros weights.
  - split; [constructor | by eexists].
  - rewrite parseWeights_cons, Forall_cons.
    destruct (decide (blankSegment seg)) as [Hb | Hb].
    + rewrite IH. split; [intros ?; split; [by left | done] | by intros [_ ?]].
    + unfold keyIntSegment.
      destruct (strings_Split (strings_TrimSpace seg) "=") as [| k [| v [| ? ?]]];
        try (split; [by intros [? ?] | by intros [[? | ?] _]]).
      destruct (strconv_Atoi (strings_TrimSpace v)).
      * split; [by intros [? ?] | by intros [[? | ?] _]].
      * rewrite IH. split; [intros ?; split; [by right | done] | by intros [_ ?]].
Qed.

Lemma foldl_addWeight_other segs weights k :
  (forall seg v, seg ∈ segs -> ~ blankSegment seg -> segmentEntry seg ≠ Some (k, v)) ->
  foldl addWeight weights segs !! k = weights !! k.
Proof.
  revert weights. induction segs as [| seg rest IH]; intros weights H; [done |].
  simpl. rewrite IH by (intros s v Hs; apply H; by right).
  unfold addWeight. destruct (decide (blankSegment seg)) as [Hb | Hb]; [done |].
  destruct (segmentEntry seg) as [[k' v'] |] eqn:E; [| done].
  apply lookup_insert_ne. intros ->. by apply (H seg v'); [left | |].
Qed.

(** X4.  When a key is named more than once, the weight of its last piece
    is the one the pass gets; key and number are taken without the white
    space around them. *)
Theorem parseWeights_last_wins front seg back weights' k v :
  parseWeights (front ++ seg :: back) ∅ = inr weights' ->
  ~ blankSegment seg -> segmentEntry seg = Some (k, v) ->
  (forall s v', s ∈ back -> ~ blankSegment s -> segmentEntry s ≠ Some (k, v')) ->
  weights' !! k = Some v.
Proof.
  intros H Hb He Hback. apply parseWeights_fold in H as ->.
  rewrite foldl_app. simpl. rewrite foldl_addWeight_other by done.
  unfold addWeight. destruct (decide (blankSegment seg)); [done |].
  rewrite He. apply lookup_insert_eq.
Qed.

(** A key that no piece names has no weight. *)
Lemma parseWeights_unnamed segs weights' k :
  parseWeights segs ∅ = inr weights' ->
  (forall seg v, seg ∈ segs -> ~ blankSegment seg -> segmentEntry seg ≠ Some (k, v)) ->
  weights' !! k = None.
Proof.
  intros H Hk. apply parseWeights_fold in H as ->.
  by rewrite foldl_addWeight_other.
Qed.

End Weights.

(** ** Temporary files, and runs without [-w] *)

Section TempFiles.
Context {Store : Type} `{RT : Runtime Store}.

Lemma os_Remove_final name w :
  os_fails (fsys w) (CallRemove name) = None ->
  fsys (final (os_Remove name w)) = delete name (fsys w).
Proof.
  intros H. unfold os_Remove, syscall. rewrite H.
  destruct (fsys w !! name) eqn:E; simpl; [done |]. by rewrite delete_id.
Qed.

Lemma writeTempFile_cases dir prefix data w :
  removeNeverFails ->
  let name := os_TempName (fsys w) dir prefix in
  match outcome (writeTempFile dir prefix data w) with
  | inl _ => fsys (final (writeTempFile dir prefix data w)) = fsys w
  | inr n =>
      n = name /\ fsys w !! name = None
      /\ fsys (final (writeTempFile dir prefix data w))
         = <[name := mkFile 384 data]> (fsys w)
  end.
Proof.
  intros Hrm name. unfold writeTempFile.
  rewrite bind_outcome, bind_final.
  destruct (outcome (ioutil_TempFile dir prefix w)) as [e | n] eqn:Ht.
  - unfold ioutil_TempFile, syscall in *. fold name in Ht |- *.
    destruct (os_fails _ _); [done |]. cbv zeta in *.
    by destruct (fsys w !! name).
  - apply ioutil_TempFile_inr in Ht as (-> & Hfresh & ->). fold name in Hfresh |- *.
    set (w1 := set_fsys (<[name := mkFile 384 ""]> (fsys w)) w).
    rewrite bind_outcome, bind_final, attempt_outcome, attempt_final.
    rewrite bind_outcome, bind_final, attempt_outcome, attempt_final.
    destruct (File_Close_run name (final (File_Write name data w1))) as [_ Hcl].
    rewrite Hcl.
    assert (forall e, fsys (final ((attempt (os_Remove name) ;; @throw string e)
                                      (final (File_Write name data w1)))) = fsys w) as Hfail.
    { intros e. rewrite bind_final, attempt_outcome, attempt_final.
      change (final (@throw string e ?w0)) with w0. rewrite os_Remove_final by apply Hrm.
      unfold File_Write, syscall. unfold w1. simpl. rewrite lookup_insert_eq.
      destruct (os_fails _ _); simpl.
      - destruct (os_torn _ _); simpl.
        + by rewrite insert_insert_eq, delete_insert_eq, delete_id.
        + by rewrite delete_insert_eq, delete_id.
      - by rewrite insert_insert_eq, delete_insert_eq, delete_id. }
    destruct (outcome (File_Write name data w1)) as [e | []] eqn:Hw.
    + simpl. rewrite bind_outcome, attempt_outcome. simpl. apply Hfail.
    + destruct (outcome (File_Close name (final (File_Write name data w1)))) as [e | []].
      * simpl. rewrite bind_outcome, attempt_outcome. simpl. apply Hfail.
      * simpl. split; [done | split; [done |]].
        apply File_Write_inr in Hw as (f & Hf & ->).
        unfold w1 in *. simpl in *. rewrite lookup_insert_eq in Hf. simplify_eq.
        simpl. by rewrite insert_insert_eq.
Qed.

(** X5.  [writeTempFile] returns the name of a file that did not exist and
    now holds the data, with mode 0600, or it fails and, [os.Remove] doing
    its work, leaves the files as they were. *)
Theorem writeTempFile_all_or_nothing dir prefix data w :
  removeNeverFails ->
  match outcome (writeTempFile dir prefix data w) with
  | inl _ => fsys (final (writeTempFile dir prefix data w)) = fsys w
  | inr n =>
      n = os_TempName (fsys w) dir prefix
      /\ fsys w !! n = None
      /\ fsys (final (writeTempFile dir prefix data w)) = <[n := mkFile 384 data]> (fsys w)
  end.
Proof.
  intros Hrm. pose proof (writeTempFile_cases dir prefix data w Hrm) as H. cbv zeta in H.
  destruct (outcome (writeTempFile dir prefix data w)) as [e | n]; [done |].
  by destruct H as (-> & ? & ?).
Qed.

Lemma exec_Command_final cmd args w : final (exec_Command cmd args w) = w.
Proof. done. Qed.

(** [diff] leaves no temporary file behind, however it ends. *)
Lemma diff_keeps b1 b2 filename :
  removeNeverFails -> KeepsFiles (diff b1 b2 filename).
Proof.
  intros Hrm w. unfold diff. rewrite bind_final.
  pose proof (writeTempFile_cases "" "gofmt" b1 w Hrm) as H1. cbv zeta in H1.
  destruct (outcome (writeTempFile "" "gofmt" b1 w)) as [e | f1]; [done |].
  destruct H1 as (-> & Hfresh1 & Hfs1).
  set (w1 := final (writeTempFile "" "gofmt" b1 w)) in *.
  rewrite deferring_final, os_Remove_final by apply Hrm.
  rewrite bind_final.
  pose proof (writeTempFile_cases "" "gofmt" b2 w1 Hrm) as H2. cbv zeta in H2.
  destruct (outcome (writeTempFile "" "gofmt" b2 w1)) as [e | f2].
  - by rewrite H2, Hfs1, delete_insert_eq, delete_id.
  - destruct H2 as (-> & Hfresh2 & Hfs2).
    set (w2 := final (writeTempFile "" "gofmt" b2 w1)) in *.
    rewrite deferring_final, os_Remove_final by apply Hrm.
    assert (forall (m : M string), KeepsFiles m -> fsys (final (m w2)) = fsys w2) as Hk
      by (intros m Hm; apply Hm).
    rewrite Hk.
    + rewrite Hfs2, delete_insert_eq, (delete_id _ _ Hfresh2).
      rewrite Hfs1, delete_insert_eq. by apply delete_id.
    + apply KeepsFiles_bind; [by intros ? | intros [data err]].
      repeat keeps_step.
Qed.

(** Without [-w], whatever [emitResult] does leaves the files alone. *)
Lemma emitResult_keeps fl filename src res perm :
  removeNeverFails -> write fl = false -> KeepsFiles (emitResult fl filename src res perm).
Proof.
  intros Hrm Hw. unfold emitResult, showDiff. rewrite Hw.
  assert (KeepsFiles (diff src res filename)) as Hd by by apply diff_keeps.
  assert (forall d, KeepsFiles (out_Write d)) as Ho by (intros d; apply out_Write_keeps).
  assert (forall {A} (m : M A), KeepsFiles m -> KeepsFiles (attempt m)) as Ha.
  { intros A m Hm w. rewrite attempt_final. apply Hm. }
  repeat first [ keeps_step | apply Ho | apply Ha | apply Hd ].
Qed.

(** X6.  A run without [-w] changes no file: with [-d] the two temporary
    files are gone when [processFile] returns, however it returns
    ([os.Remove] doing its work). *)
Theorem processFile_keeps_files fl filename inp stdin w :
  removeNeverFails -> write fl = false ->
  fsys (final (processFile fl filename inp stdin w)) = fsys w.
Proof.
  intros Hrm Hw. revert w. change (KeepsFiles (processFile fl filename inp stdin)).
  assert (forall readAll perm, KeepsFiles readAll ->
            KeepsFiles (processBody fl filename readAll perm)) as Hb.
  { intros readAll perm Hr. unfold processBody.
    apply KeepsFiles_bind; [intros w; by apply prepare_keeps | intros [[src file] res]].
    by apply emitResult_keeps. }
  unfold processFile. destruct inp as [r |].
  - apply Hb. unfold readIn. repeat keeps_step.
  - apply KeepsFiles_bind; [apply os_Open_keeps | intros _].
    apply KeepsFiles_deferring; [| apply File_Close_keeps].
    apply KeepsFiles_bind; [apply File_Stat_keeps | intros perm].
    apply Hb. apply File_ReadAll_keeps.
Qed.

End TempFiles.

(** ** The files a run touches *)

Section Frame.
Context {Store : Type} `{RT : Runtime Store}.

Lemma Touches_keeps {A} P (m : M A) : KeepsFiles m -> Touches P m.
Proof. intros H w n _. by rewrite H. Qed.

Lemma Touches_bind {A B} P (m : M A) (k : A -> M B) :
  Touches P m -> (forall a, Touches P (k a)) -> Touches P (bind m k).
Proof.
  intros Hm Hk w n Hn. rewrite bind_final.
  destruct (outcome (m w)) as [e | a]; [by apply Hm |].
  rewrite Hk by done. by apply Hm.
Qed.

Lemma Touches_attempt {A} P (m : M A) : Touches P m -> Touches P (attempt m).
Proof. intros Hm w n Hn. rewrite attempt_final. by apply Hm. Qed.

Lemma Touches_syscall {A} P c (run : FS -> error + (FS * A)) torn :
  (forall fs fs' a n, run fs = inr (fs', a) -> ~ P n -> fs' !! n = fs !! n) ->
  (forall fs n, ~ P n -> torn fs !! n = fs !! n) ->
  Touches P (syscall c run torn).
Proof.
  intros Hrun Htorn w n Hn. unfold syscall.
  destruct (os_fails (fsys w) c); simpl; [by apply Htorn |].
  destruct (run (fsys w)) as [e | [fs' a]] eqn:E; simpl; [done |].
  by apply (Hrun _ _ a).
Qed.

Lemma File_Chmod_touches (P : string -> Prop) name perm :
  P name -> Touches P (File_Chmod name perm).
Proof.
  intros HP. apply Touches_syscall; [| done].
  intros fs fs' a n Hrun Hn. destruct (fs !! name); simplify_eq.
  apply lookup_insert_ne. by intros ->.
Qed.

Lemma File_Write_touches (P : string -> Prop) name data :
  P name -> Touches P (File_Write name data).
Proof.
  intros HP. apply Touches_syscall.
  - intros fs fs' a n Hrun Hn. destruct (fs !! name); simplify_eq.
    apply lookup_insert_ne. by intros ->.
  - intros fs n Hn. destruct (os_torn _ _); [| done].
    destruct (fs !! name); [| done]. apply lookup_insert_ne. by intros ->.
Qed.

Lemma ioutil_WriteFile_touches (P : string -> Prop) name data perm :
  P name -> Touches P (ioutil_WriteFile name data perm).
Proof.
  intros HP. apply Touches_syscall.
  - intros fs fs' a n Hrun Hn. simplify_eq. apply lookup_insert_ne. by intros ->.
  - intros fs n Hn. destruct (os_torn _ _); [| done].
    apply lookup_insert_ne. by intros ->.
Qed.

Lemma os_Remove_touches (P : string -> Prop) name :
  P name -> Touches P (os_Remove name).
Proof.
  intros HP. apply Touches_syscall; [| done].
  intros fs fs' a n Hrun Hn. destruct (fs !! name); simplify_eq.
  apply lookup_delete_ne. by intros ->.
Qed.

Lemma os_Rename_touches (P : string -> Prop) old new :
  P old -> P new -> Touches P (os_Rename old new).
Proof.
  intros Ho Hn. apply Touches_syscall; [| done].
  intros fs fs' a n Hrun Hnn. destruct (fs !! old); simplify_eq.
  rewrite lookup_insert_ne by by intros ->.
  apply lookup_delete_ne. by intros ->.
Qed.

Ltac touches :=
  repeat first
    [ apply Touches_bind; [ | intros ]
    | apply Touches_attempt
    | apply File_Chmod_touches
    | apply File_Write_touches
    | apply ioutil_WriteFile_touches
    | apply os_Remove_touches
    | apply os_Rename_touches
    | match goal with
      | |- Touches _ (if ?b then _ else _) => destruct b
      | |- Touches _ (match ?x with _ => _ end) => destruct x
      end
    | apply Touches_keeps; solve [repeat keeps_step] ].

Lemma ioutil_TempFile_cases dir prefix w :
  let name := os_TempName (fsys w) dir prefix in
  match outcome (ioutil_TempFile dir prefix w) with
  | inl _ => final (ioutil_TempFile dir prefix w) = w
  | inr n => n = name /\ fsys w !! name = None
             /\ final (ioutil_TempFile dir prefix w)
                = set_fsys (<[name := mkFile 384 ""]> (fsys w)) w
  end.
Proof.
  intros name.
  destruct (outcome (ioutil_TempFile dir prefix w)) as [e | n] eqn:Ht.
  - unfold ioutil_TempFile, syscall in *. fold name in Ht |- *.
    destruct (os_fails _ _); [apply set_fsys_same |]. cbv zeta in *.
    by destruct (fsys w !! name).
  - by apply ioutil_TempFile_inr in Ht as (-> & Hfresh & ->).
Qed.

(** [backupFile] changes no file but the one it creates, and returns the
    name of that one. *)
Lemma backupFile_frame filename data perm w :
  let bak := os_TempName (fsys w) (filepath_Dir filename) (filepath_Base filename) in
  (forall n, n ≠ bak ->
     fsys (final (backupFile filename data perm w)) !! n = fsys w !! n)
  /\ (forall b, outcome (backupFile filename data perm w) = inr b -> b = bak).
Proof.
  intros bak. unfold backupFile.
  pose proof (ioutil_TempFile_cases (filepath_Dir filename) (filepath_Base filename) w) as Ht.
  cbv zeta in Ht. fold bak in Ht. rewrite bind_final, bind_outcome.
  destruct (outcome (ioutil_TempFile _ _ w)) as [e | n0].
  - rewrite Ht. done.
  - destruct Ht as (-> & Hfresh & ->). split.
    + intros n Hn.
      match goal with |- fsys (final (?m ?w1)) !! n = _ =>
        assert (Touches (fun x => x = bak) m) as Hm by (touches; done);
        rewrite (Hm w1 n Hn) end.
      simpl. by apply lookup_insert_ne.
    + intros b Hb.
      apply bind_outcome_inr in Hb as ([] & _ & Hb).
      apply bind_outcome_inr in Hb as (r & _ & Hb).
      apply bind_outcome_inr in Hb as (r1 & _ & Hb).
      destruct (firstError r r1); [done |]. by injection Hb as <-.
Qed.

Lemma overwrite_frame filename src res perm w n :
  n ≠ filename -> n ≠ backupName (fsys w) filename ->
  fsys (final (overwrite filename src res perm w)) !! n = fsys w !! n.
Proof.
  intros Hf Hb. unfold overwrite. rewrite bind_final.
  destruct (backupFile_frame (filename +:+ ".") src perm w) as [Hfr Hname].
  destruct (outcome (backupFile (filename +:+ ".") src perm w)) as [e | bak] eqn:E;
    [by apply Hfr |].
  specialize (Hname _ eq_refl). subst bak. fold (backupName (fsys w) filename).
  match goal with |- fsys (final (?m ?w1)) !! n = _ =>
    assert (Touches (fun x => x = filename \/ x = backupName (fsys w) filename) m) as Hm
      by (touches; auto);
    rewrite (Hm w1 n) by (by intros [? | ?]) end.
  by apply Hfr.
Qed.

Lemma emitResult_frame fl filename src res perm w n :
  removeNeverFails ->
  n ≠ filename -> n ≠ backupName (fsys w) filename ->
  fsys (final (emitResult fl filename src res perm w)) !! n = fsys w !! n.
Proof.
  intros Hrm Hf Hb. unfold emitResult.
  assert (forall {A} (m : M A) w', KeepsFiles m -> fsys (final (m w')) = fsys w') as Hk
    by (intros A m w' Hm; apply Hm).
  assert (forall d, KeepsFiles (attempt (out_Write d))) as Ho.
  { intros d w'. rewrite attempt_final. apply out_Write_keeps. }
  assert (KeepsFiles (showDiff filename src res)) as Hs.
  { unfold showDiff. apply KeepsFiles_bind.
    - intros w'. rewrite attempt_final. by apply diff_keeps.
    - intros [e | d]; repeat first [keeps_step | apply Ho]. }
  rewrite bind_final.
  match goal with |- context [outcome (?m w)] =>
    assert (fsys (final (m w)) !! n = fsys w !! n) as Hmain end.
  { destruct (negb (String.eqb src res)); [| done].
    rewrite bind_final.
    assert (forall w', fsys (final ((if listFiles fl then
               attempt (out_Write (filename +:+ String newline "")) ;; ret tt
             else ret tt) w')) = fsys w') as Hl.
    { intros w'. apply Hk. destruct (listFiles fl); repeat first [keeps_step | apply Ho]. }
    destruct (outcome _) as [e | []]; [by rewrite Hl |].
    rewrite bind_final.
    set (w1 := final _).
    assert (fsys w1 = fsys w) as Hw1 by apply Hl.
    assert (fsys (final ((if write fl then overwrite filename src res perm else ret tt) w1))
              !! n = fsys w !! n) as Hov.
    { destruct (write fl); [| by rewrite <- Hw1].
      rewrite overwrite_frame by (by rewrite ?Hw1). by rewrite Hw1. }
    destruct (outcome _) as [e | []]; [done |].
    rewrite Hk; [done |]. destruct (doDiff fl); [done | repeat keeps_step]. }
  destruct (outcome _) as [e | []]; [done |].
  rewrite Hk; [done |].
  destruct (_ && _); [apply out_Write_keeps | repeat keeps_step].
Qed.

(** X7.  A run, whatever its flags and however it ends, changes no file but
    the one it is given and the backup of it ([os.Remove] doing its work
    on the temporary files of [-d]). *)
Theorem processFile_frame fl filename inp stdin w n :
  removeNeverFails ->
  n ≠ filename -> n ≠ backupName (fsys w) filename ->
  fsys (final (processFile fl filename inp stdin w)) !! n = fsys w !! n.
Proof.
  intros Hrm Hf Hb.
  assert (forall readAll perm w', KeepsFiles readAll -> fsys w' = fsys w ->
            fsys (final (processBody fl filename readAll perm w')) !! n = fsys w !! n) as Hbody.
  { intros readAll perm w' Hr Hw'. unfold processBody. rewrite bind_final.
    pose proof (prepare_keeps fl filename readAll w' Hr) as Hp.
    destruct (outcome (prepare fl filename readAll w')) as [e | [[src file] res]];
      [by rewrite Hp, Hw' |].
    rewrite emitResult_frame by (by rewrite ?Hp, ?Hw'). by rewrite Hp, Hw'. }
  unfold processFile. destruct inp as [r |].
  - apply Hbody; [unfold readIn; repeat keeps_step | done].
  - rewrite bind_final.
    pose proof (os_Open_keeps filename w) as Ho.
    destruct (outcome (os_Open filename w)) as [e | []]; [by rewrite Ho |].
    rewrite deferring_final, File_Close_keeps, bind_final.
    pose proof (File_Stat_keeps filename (final (os_Open filename w))) as Hs.
    destruct (outcome (File_Stat filename _)) as [e | perm]; [by rewrite Hs, Ho |].
    apply Hbody; [apply File_ReadAll_keeps | by rewrite Hs, Ho].
Qed.

End Frame.

(** ** Failures, and [-l] *)

Section Failures.
Context {Store : Type} `{RT : Runtime Store}.

(** X8.  A run that fails anywhere up to the printer (selectors, reading,
    parsing, the fill rule, the weights, a [Scan], an [Execute], the
    printer itself) returns that error, has written nothing and has
    changed no file. *)
Theorem processFile_fails_before_output fl filename inp stdin w perm readAll ev0 e :
  entered filename inp w perm readAll ev0 ->
  outcome (prepare fl filename readAll w) = inl e ->
  outcome (processFile fl filename inp stdin w) = inl e
  /\ Forall (fun ev => isOutput ev = false) (events (processFile fl filename inp stdin w))
  /\ fsys (final (processFile fl filename inp stdin w)) = fsys w.
Proof.
  intros Hent Hp.
  destruct (entered_reader _ _ _ _ _ _ Hent) as (Hev & Hfs & Hev0).
  rewrite (processFile_entered _ _ _ stdin _ _ _ _ Hent).
  rewrite events_triple, final_triple, outcome_triple.
  unfold processBody.
  rewrite (bind_fails _ _ _ _ Hp), events_triple, final_triple, outcome_triple.
  split; [done | split; [| by apply prepare_keeps]].
  rewrite !Forall_app. split; [| split].
  - eapply Forall_impl; [exact Hev0 | by intros ? []].
  - apply prepare_no_output. intros w'.
    eapply Forall_impl; [apply Hev | by intros ? []].
  - by destruct inp; repeat constructor.
Qed.

(** X9.  When a [Scan] returns an error, no [Execute] of any pass has run:
    the run ends with that error, the steps made are [Scan]s of the
    enabled passes in order, and nothing is written. *)
Theorem scan_error_stops_before_execute
    fl filename inp stdin w src (file : Store) executor perm ev w1 e :
  reachesPasses fl filename inp w src file executor perm ev w1 ->
  outcome (scanAll executor file w1) = inl e ->
  outcome (processFile fl filename inp stdin w) = inl e
  /\ Forall (fun ev => (forall p, ev ≠ EvExecute p) /\ isOutput ev = false)
       (events (processFile fl filename inp stdin w))
  /\ passEvents (events (processFile fl filename inp stdin w))
     `prefix_of` map EvScan (enabledPasses fl).
Proof.
  intros (readAll & ev0 & ev1 & Hent & Hsetup & ->) Hscan.
  destruct (entered_reader _ _ _ _ _ _ Hent) as (Hev & Hfs & Hev0).
  assert (buildExecutors fl = inr executor) as Hb.
  { apply (setup_build fl filename readAll w src file). by rewrite Hsetup. }
  rewrite (processFile_entered _ _ _ stdin _ _ _ _ Hent).
  rewrite events_triple, outcome_triple.
  unfold processBody, prepare.
  rewrite (bind_assoc (setup fl filename readAll)).
  rewrite (bind_ok _ _ _ _ _ _ Hsetup), events_triple, outcome_triple.
  rewrite (bind_assoc (runPasses executor file)).
  unfold runPasses. rewrite (bind_assoc (scanAll executor file)).
  rewrite (bind_fails _ _ _ _ Hscan), events_triple, outcome_triple.
  pose proof (setup_silent fl filename readAll Hev w) as Hs.
  rewrite Hsetup, events_triple in Hs.
  split; [done | split].
  - assert (forall x, Silent x -> (forall p, x ≠ EvExecute p) /\ isOutput x = false) as Hsil.
    { intros x [Hp Ho]. split; [by intros p -> | done]. }
    rewrite !Forall_app. split; [| split; [split |]].
    + eapply Forall_impl; [exact Hev0 | exact Hsil].
    + eapply Forall_impl; [exact Hs | exact Hsil].
    + apply Emits_scanAll. done.
    + by destruct inp; repeat constructor.
  - rewrite <- (buildExecutors_labels fl executor Hb). rewrite !passEvents_app.
    rewrite (passEvents_none ev0)
      by (eapply Forall_impl; [exact Hev0 | by intros ? []]).
    rewrite (passEvents_none ev1)
      by (eapply Forall_impl; [exact Hs | by intros ? []]).
    rewrite (passEvents_none (closing inp filename)) by (by destruct inp; repeat constructor).
    rewrite app_nil_r, !app_nil_l.
    rewrite passEvents_all by (apply Emits_scanAll; done).
    apply scanAll_prefix.
Qed.

(** X10.  With [-l] alone and a changed file, the run writes the name of
    the file and a newline to [out], nothing else, changes no file, and
    succeeds whether that write does or not. *)
Theorem list_mode_prints_the_name fl filename inp stdin w src file res perm ev w1 :
  reaches fl filename inp w src file res perm ev w1 ->
  listFiles fl = true -> write fl = false -> doDiff fl = false -> res ≠ src ->
  events (processFile fl filename inp stdin w)
  = ev ++ [EvOs (CallOut (filename +:+ String newline ""))] ++ closing inp filename
  /\ written (events (processFile fl filename inp stdin w))
     = [filename +:+ String newline ""]
  /\ outcome (processFile fl filename inp stdin w) = inr tt
  /\ fsys (final (processFile fl filename inp stdin w)) = fsys w.
Proof.
  intros Hr Hl Hw Hd Hne.
  destruct (reaches_facts _ _ _ _ _ _ _ _ _ _ Hr) as (_ & Hwr & Hfs).
  rewrite (processFile_reaches _ _ _ stdin _ _ _ _ _ _ _ Hr).
  rewrite events_triple, final_triple, outcome_triple.
  assert (emitResult fl filename src res perm w1
          = ([EvOs (CallOut (filename +:+ String newline ""))], w1, inr tt)) as ->.
  { unfold emitResult. rewrite Hl, Hw, Hd.
    assert (String.eqb src res = false) as -> by (apply String.eqb_neq; congruence).
    simpl. unfold bind, attempt, ret. rewrite out_Write_run. simpl. done. }
  rewrite events_triple, final_triple, outcome_triple.
  split; [done | split; [| done]].
  rewrite !written_app, Hwr. by destruct inp.
Qed.

End Failures.

(** ** The filters between two runs *)

Section Filters.
Context {Store : Type} `{RT : Runtime Store}.

Lemma IgnoresFilters_bind {A B} (m : M A) (k : A -> M B) :
  IgnoresFilters m -> (forall a, IgnoresFilters (k a)) -> IgnoresFilters (bind m k).
Proof.
  intros Hm Hk w w' Hw. destruct (Hm w w' Hw) as (He & Ho & Hf).
  rewrite !bind_events, !bind_outcome, !bind_final, <- He, <- Ho.
  destruct (outcome (m w)) as [e | a]; [done |].
  destruct (Hk a _ _ Hf) as (He2 & Ho2 & Hf2). by rewrite He2, Ho2.
Qed.

Lemma IgnoresFilters_deferring {A B} (d : M B) (m : M A) :
  IgnoresFilters m -> IgnoresFilters d -> IgnoresFilters (deferring d m).
Proof.
  intros Hm Hd w w' Hw. destruct (Hm w w' Hw) as (He & Ho & Hf).
  destruct (Hd _ _ Hf) as (He2 & _ & Hf2).
  rewrite !deferring_events, !deferring_outcome, !deferring_final.
  by rewrite He, He2, Ho.
Qed.

Lemma IgnoresFilters_syscall {A} c (run : FS -> error + (FS * A)) torn :
  IgnoresFilters (syscall c run torn).
Proof.
  intros w w' [Hp Hfs]. unfold syscall. rewrite <- Hfs.
  destruct (os_fails (fsys w) c); [done |].
  by destruct (run (fsys w)) as [e | [fs' a]].
Qed.

(** Once both selectors are set, nothing is left of the filters the run
    started with. *)
Lemma initSelectors_resets fl w w' :
  sameFiles w w' ->
  events (initSelectors fl w) = events (initSelectors fl w')
  /\ outcome (initSelectors fl w) = outcome (initSelectors fl w')
  /\ sameFiles (final (initSelectors fl w)) (final (initSelectors fl w'))
  /\ (outcome (initSelectors fl w) = inr tt ->
      final (initSelectors fl w) = final (initSelectors fl w')).
Proof.
  intros [Hp Hfs]. destruct w as [f g p fs], w' as [f' g' p' fs']. simpl in *. subst.
  unfold initSelectors, selectInit, structSelectInit,
    bind, emit, liftResult, modify, ret, throw.
  destruct (decide (inversePattern fl ≠ "")), (decide (inverseStructPattern fl ≠ ""));
    repeat match goal with
           | |- context [regexp_Compile ?x] => destruct (regexp_Compile x)
           end; simpl; done.
Qed.

Lemma processBody_from_selectors fl filename readAll perm w :
  processBody fl filename readAll perm w
  = bind (initSelectors fl)
      (fun _ =>
         do (src, _, res) <-
           (do (src, file, executor) <-
              (do src <- readAll ;
               do w <- getWorld ;
               do file <- liftResult (parser_ParseFile filename src (parserMode w)) ;
               do executor <- liftResult (buildExecutors fl) ;
               ret (src, file, executor)) ;
            do file <- runPasses executor file ;
            do res <- liftResult (printer_Fprint file) ;
            ret (src, file, res)) ;
         emitResult fl filename src res perm) w.
Proof.
  unfold processBody, prepare, setup.
  rewrite bind_assoc. rewrite bind_assoc. apply bind_ext. intros [] w0.
  symmetry. apply bind_assoc.
Qed.

Lemma IgnoresFilters_processBody fl filename readAll perm :
  IgnoresFilters (processBody fl filename readAll perm).
Proof.
  intros w w' Hw. rewrite !processBody_from_selectors.
  destruct (initSelectors_resets fl w w' Hw) as (He & Ho & Hf & Heq).
  rewrite !bind_events, !bind_outcome, !bind_final, <- He, <- Ho.
  destruct (outcome (initSelectors fl w)) as [e | []]; [done |].
  rewrite <- Heq by done. done.
Qed.

(** X11.  What a run does, returns and leaves in the files does not depend
    on the filters an earlier run has left in [fieldFilter] and
    [structFieldSelect]. *)
Theorem processFile_ignores_old_filters fl filename inp stdin w f g :
  let w' := {| fieldFilter := f; structFieldSelect := g;
               parserMode := parserMode w; fsys := fsys w |} in
  events (processFile fl filename inp stdin w') = events (processFile fl filename inp stdin w)
  /\ outcome (processFile fl filename inp stdin w')
     = outcome (processFile fl filename inp stdin w)
  /\ fsys (final (processFile fl filename inp stdin w'))
     = fsys (final (processFile fl filename inp stdin w)).
Proof.
  intros w'.
  assert (IgnoresFilters (processFile fl filename inp stdin)) as H.
  { unfold processFile. destruct inp as [r |].
    - apply IgnoresFilters_processBody.
    - apply IgnoresFilters_bind; [apply IgnoresFilters_syscall | intros _].
      apply IgnoresFilters_deferring; [| apply IgnoresFilters_syscall].
      apply IgnoresFilters_bind; [apply IgnoresFilters_syscall | intros perm].
      apply IgnoresFilters_processBody. }
  destruct (H w' w) as (He & Ho & _ & Hf); [done |]. done.
Qed.

End Filters.

(** ** The command *)

Lemma string_substring_0_0 s : String.substring 0 0 s = "".
Proof. by destruct s. Qed.

Lemma string_substring_all s : String.substring 0 (String.length s) s = s.
Proof. induction s as [| c s IH]; [done |]. simpl. by rewrite IH. Qed.

Lemma string_substring_app p s :
  String.substring (String.length p) (String.length s) (p +:+ s) = s.
Proof. induction p as [| c p IH]; [apply string_substring_all | exact IH]. Qed.

Lemma string_length_app (a b : string) :
  String.length (a +:+ b) = (String.length a + String.length b)%nat.
Proof. induction a as [| c a IH]; [done |]. simpl. by rewrite IH. Qed.

Lemma string_substring_split s k m :
  (k + m = String.length s)%nat ->
  s = String.substring 0 k s +:+ String.substring k m s.
Proof.
  revert k. induction s as [| c s IH]; intros k H.
  - simpl in H. assert (k = 0%nat) as -> by lia. assert (m = 0%nat) as -> by lia. done.
  - destruct k as [| k].
    + simpl in H. subst m. simpl. by rewrite string_substring_all.
    + simpl.
      change (String c s = String c (String.substring 0 k s +:+ String.substring k m s)).
      f_equal. apply IH. simpl in H. lia.
Qed.

Lemma strings_HasSuffix_spec s suffix :
  strings_HasSuffix s suffix = true <-> exists p, s = p +:+ suffix.
Proof.
  unfold strings_HasSuffix. rewrite andb_true_iff, Nat.leb_le, String.eqb_eq. split.
  - intros [Hl Hs].
    exists (String.substring 0 (String.length s - String.length suffix) s).
    etransitivity;
      [apply (string_substring_split s (String.length s - String.length suffix)
                (String.length suffix)); lia |].
    by rewrite Hs.
  - intros [p ->]. rewrite string_length_app. split; [lia |].
    replace (String.length p + String.length suffix - String.length suffix)%nat
      with (String.length p) by lia.
    apply string_substring_app.
Qed.

Lemma strings_HasPrefix_dot s :
  strings_HasPrefix s "." = true <-> exists r, s = String "." r.
Proof.
  unfold strings_HasPrefix. destruct s as [| c r].
  - split; [done | by intros [? ?]].
  - change (String.substring 0 (String.length ".") (String c r))
      with (String c (String.substring 0 0 r)).
    rewrite string_substring_0_0, andb_true_iff, String.eqb_eq. split.
    + intros [_ [= ->]]. by eexists.
    + by intros [r' [= -> ->]].
Qed.

(** X12.  [isGoFile] holds of an entry that is no directory and whose name
    ends in [.go] after at least one byte, the first of which is no dot. *)
Theorem isGoFile_spec f :
  isGoFile f = true
  <-> IsDir f = false
      /\ exists c stem, Name f = String c stem +:+ ".go" /\ c ≠ "."%char.
Proof.
  unfold isGoFile. cbv zeta. rewrite !andb_true_iff, !negb_true_iff.
  rewrite strings_HasSuffix_spec. split.
  - intros [[Hd Hp] [p Hs]]. split; [done |].
    apply not_true_iff_false in Hp.
    destruct p as [| c stem].
    + exfalso. apply Hp, strings_HasPrefix_dot. rewrite Hs. by eexists.
    + exists c, stem. split; [done |]. intros ->.
      apply Hp, strings_HasPrefix_dot. rewrite Hs. by eexists.
  - intros [Hd (c & stem & Hs & Hc)]. split; [split; [done |] | by eexists].
    apply not_true_is_false. intros [r Hr]%strings_HasPrefix_dot.
    rewrite Hs in Hr. simpl in Hr. by injection Hr as -> _.
Qed.

(** X13.  [resetFlags] gives the defaults back, but for the sort weights:
    they stay what they were, so the result is the default configuration
    exactly when [-sw] was empty. *)
Theorem resetFlags_keeps_weights o :
  (resetFlags o = defaultOptions <-> tagSortWeight (flags o) = "")
  /\ tagSortWeight (flags (resetFlags o)) = tagSortWeight (flags o)
  /\ resetFlags (resetFlags o) = resetFlags o.
Proof.
  split; [| done]. unfold resetFlags, defaultOptions, defaultFlags. split.
  - by intros [= ->].
  - by intros ->.
Qed.

Section CommandFacts.
Context {Store : Type} `{RT : Runtime Store} `{SYS : System}.

(** X14.  A Go file of the walk that is gone when [processFile] opens it:
    nothing is reported, and the exit code and the files stay what they
    were. *)
Theorem visitFile_missing_file fl path f p :
  isGoFile f = true ->
  fsys (world p) !! path = None ->
  os_fails (fsys (world p)) (CallOpen path) = None ->
  os_IsNotExist errNotExist = true ->
  visitFile fl path f None p
  = ([StepFile path [EvOs (CallOpen path)]], p, None).
Proof.
  intros Hgo Hf Ho Hne. unfold visitFile, runFile. rewrite Hgo.
  assert (processFile fl path None false (world p)
          = ([EvOs (CallOpen path)], world p, inl errNotExist)) as ->.
  { unfold processFile. apply bind_err. unfold os_Open, syscall.
    by rewrite Ho, Hf. }
  rewrite events_triple, final_triple, outcome_triple. simpl. rewrite Hne. simpl.
  by destruct p.
Qed.

(** X15.  [visitFile] never stops the walk.  It hands to [processFile]
    an entry that came without an error and is a Go file, and nothing
    else.  The error it then holds (the one the walk gave it, or else the
    one [processFile] returned) is reported unless it is a not-exist
    error, and nothing else is reported; the exit code is 2 after a
    report and unchanged without one. *)
Theorem visitFile_reports fl path f err p :
  let run := processFile fl path None false (world p) in
  let called := match err with None => isGoFile f | Some _ => false end in
  let failure :=
    match err with
    | Some e => Some e
    | None =>
        if isGoFile f then
          match outcome run with
          | inl e => Some e
          | inr _ => None
          end
        else None
    end in
  let r := visitFile fl path f err p in
  r.2 = None
  /\ exitCode r.1.2 = (if reported r.1.1 is [] then exitCode p else 2)
  /\ Forall (fun e => os_IsNotExist e = false) (reported r.1.1)
  /\ (processed r.1.1 ≠ [] -> err = None /\ isGoFile f = true)
  /\ (forall e, err = Some e -> os_IsNotExist e = false -> reported r.1.1 = [e])
  /\ reported r.1.1
     = match failure with
       | Some e => if os_IsNotExist e then [] else [e]
       | None => []
       end
  /\ r.1.1
     = (if called then [StepFile path (events run)] else [])
       ++ map StepReport (reported r.1.1)
  /\ world r.1.2 = (if called then final run else world p).
Proof.
  unfold visitFile, runFile. destruct err as [e |].
  - destruct (os_IsNotExist e) eqn:E; simpl; repeat split; try done;
      try (by repeat constructor); intros e' [= <-] ?; congruence.
  - destruct (isGoFile f); [| by repeat split].
    destruct (outcome (processFile fl path None false (world p))) as [e | []];
      [destruct (os_IsNotExist e) eqn:E |]; simpl; repeat split; try done.
    by repeat constructor.
Qed.

End CommandFacts.

Section MainFacts.
Context {Store : Type} `{RT : Runtime Store} `{SYS : System}.


Lemma processed_app t1 t2 : processed (t1 ++ t2) = processed t1 ++ processed t2.
Proof. apply omap_app. Qed.

Lemma reported_app t1 t2 : reported (t1 ++ t2) = reported t1 ++ reported t2.
Proof. apply omap_app. Qed.

(** X16.  With [-w] and no path, the command refuses: it hands nothing to
    [processFile] and exits with 2. *)
Theorem main_refuses_write_on_stdin o p :
  write (flags o) = true ->
  processed (main o [] p).1 = []
  /\ (main o [] p).2 = 2
  /\ (cpuprofile o = "" ->
      (main o [] p).1
      = [StepStderr ("error: cannot use -w with standard input" +:+ String newline "")]).
Proof.
  intros Hw. unfold main, gofmtMain, gofmtRun.
  rewrite Hw.
  destruct (decide (cpuprofile o ≠ "")) as [Hc | Hc].
  - destruct (os_Create (cpuprofile o) (fsys (world p))); simpl; by repeat split.
  - by repeat split.
Qed.

Lemma processArg_steps fl path p :
  (forall info, os_Stat (fsys (world p)) path = inr info -> IsDir info = false) ->
  let r := processArg fl path p in
  argSteps path r.1
  /\ exitCode r.2 = (if reported r.1 is [] then exitCode p else 2)
  /\ pathHandled fl path p r.1 r.2.
Proof.
  intros Hd. unfold processArg, runFile, argSteps, pathHandled.
  destruct (os_Stat (fsys (world p)) path) as [e | info];
    [by split; [left; eexists |] |].
  rewrite (Hd info eq_refl). cbv zeta.
  destruct (outcome (processFile fl path None false (world p))) as [e | []]; simpl.
  - split; [right; right; by do 2 eexists | done].
  - split; [right; left; by eexists | done].
Qed.

Lemma processArgs_steps fl args p :
  (forall fs path info, path ∈ args -> os_Stat fs path = inr info -> IsDir info = false) ->
  let r := processArgs fl args p in
  (exists segs, r.1 = concat segs /\ Forall2 argSteps args segs)
  /\ exitCode r.2 = (if reported r.1 is [] then exitCode p else 2)
  /\ pathsHandled fl args p r.1 r.2.
Proof.
  revert p. induction args as [| path rest IH]; intros p H.
  - split; [by exists [] | split; [done | constructor]].
  - destruct (processArg_steps fl path p) as (Hp & He & Hh);
      [intros info; apply H; by left |].
    simpl. destruct (processArg fl path p) as [t1 p1]. simpl in *.
    destruct (IH p1) as ((segs & Hc & Hf) & He2 & Hh2);
      [intros fs q info Hq; apply H; by right |].
    destruct (processArgs fl rest p1) as [t2 p2]. simpl in *.
    split; [| split].
    + exists (t1 :: segs). split; [by rewrite Hc | by constructor].
    + rewrite reported_app, He2, He. by destruct (reported t1), (reported t2).
    + by econstructor.
Qed.

(** X17.  Given paths that are no directories, the command takes them in
    order and every one of them, whatever the earlier ones did, each from
    the process the one before it has left: the error of [os.Stat] on a
    path is reported; any other path is handed to [processFile], the
    world after it is the one that run leaves, and the error of the run,
    if it has one, is reported.  The exit code is 0 when nothing was
    reported and 2 otherwise. *)
Theorem main_processes_every_path o args fs :
  cpuprofile o = "" -> args ≠ [] ->
  (forall fs path info, path ∈ args -> os_Stat fs path = inr info -> IsDir info = false) ->
  let r := main o args (initialProcess fs) in
  (exists segs, r.1 = concat segs /\ Forall2 argSteps args segs)
  /\ (r.2 = 0 <-> reported r.1 = [])
  /\ (r.2 = 0 \/ r.2 = 2)
  /\ (exists p', pathsHandled (flags o) args (startProcess (flags o) fs) r.1 p'
                 /\ r.2 = exitCode p').
Proof.
  intros Hc Hargs H. unfold main, gofmtMain. rewrite Hc.
  destruct (decide ("" ≠ "")) as [? | _]; [done |].
  unfold gofmtRun. destruct args as [| path rest]; [done |].
  match goal with |- context [processArgs ?fl ?a ?p] =>
    destruct (processArgs_steps fl a p H) as (Hp & He & Hh);
    destruct (processArgs fl a p) as [t p1] end.
  simpl in *. split; [done |]. rewrite He.
  split; [| split; [| by exists p1]].
  - by destruct (reported t).
  - destruct (reported t); auto.
Qed.

End MainFacts.

(** ** The theorems at work: runs of the demo runtime *)

Module Examples.

Import TagGrammar TagDoctor Demo.

(** A run is its trace, its final world and its outcome. *)
Lemma run_intro {A} (r : list Event * World * (error + A)) ev o :
  events r = ev -> outcome r = o -> r = (ev, final r, o).
Proof. intros <- <-. apply run_eta. Qed.

Section Intro.
Context {St : Type} `{RT : Runtime St}.

(** A run reaches line 225 once it has entered and [prepare] succeeds. *)
Lemma reaches_intro fl filename inp w perm readAll ev0 ev1 src file res :
  entered filename inp w perm readAll ev0 ->
  events (prepare fl filename readAll w) = ev1 ->
  outcome (prepare fl filename readAll w) = inr (src, file, res) ->
  reaches fl filename inp w src file res perm (ev0 ++ ev1)
    (final (prepare fl filename readAll w)).
Proof.
  intros Hent Hev Hout. exists readAll, ev0, ev1.
  split; [done | split; [| done]]. by apply run_intro.
Qed.

(** A run reaches line 203 once it has entered and [setup] succeeds. *)
Lemma reachesPasses_intro fl filename inp w perm readAll ev0 ev1 src file executor :
  entered filename inp w perm readAll ev0 ->
  events (setup fl filename readAll w) = ev1 ->
  outcome (setup fl filename readAll w) = inr (src, file, executor) ->
  reachesPasses fl filename inp w src file executor perm (ev0 ++ ev1)
    (final (setup fl filename readAll w)).
Proof.
  intros Hent Hev Hout. exists readAll, ev0, ev1.
  split; [done | split; [| done]]. by apply run_intro.
Qed.

End Intro.

(** Against C1 as the specification words it: with the four passes on, the
    run succeeds with every [Scan] before the first [Execute]; the trace is
    not the one where each pass scans and executes before the next. *)
Lemma processFile_order_counterexample :
  outcome (run quiet allPasses "a.go" (Some (inr sample)) ∅) = inr tt
  /\ passEvents (events (run quiet allPasses "a.go" (Some (inr sample)) ∅))
     = batched [Doctor; Fill; Sort; Align]
  /\ passEvents (events (run quiet allPasses "a.go" (Some (inr sample)) ∅))
     ≠ interleaved [Doctor; Fill; Sort; Align].
Proof. split; [| split]; [vm_compute; reflexivity.. | vm_compute; discriminate]. Qed.








(** C5 on a tag of two keys. *)
Lemma serialize_parse_witness :
  parse unclosedRound twoKeys
  = inr [mkEntry "json" (q "name,omitempty") 0; mkEntry "yaml" (q "n") 1]
  /\ serialize [mkEntry "json" (q "name,omitempty") 0; mkEntry "yaml" (q "n") 1] = twoKeys
  /\ parse unclosedRound
       (serialize [mkEntry "json" (q "name,omitempty") 0; mkEntry "yaml" (q "n") 1])
     = inr [mkEntry "json" (q "name,omitempty") 0; mkEntry "yaml" (q "n") 1].
Proof.
  assert (parse unclosedRound twoKeys
          = inr [mkEntry "json" (q "name,omitempty") 0; mkEntry "yaml" (q "n") 1]) as H
    by (vm_compute; reflexivity).
  split; [exact H |].
  exact (TagGrammarFacts.serialize_parse unclosedRound twoKeys _ H).
Defined.

(** Against C6 as the specification words it: a source with tabs between
    the columns and a well-formed tag gets no edit from any pass, and the
    output is not the source: the printer writes the columns anew. *)
Lemma reformatted_without_edit_counterexample :
  parseSource "a.go" tabbed 4 = inr (mkStore [nameField] [] [])
  /\ outcome (prepared quiet defaultFlags "a.go" (readIn (inr tabbed)) ∅)
     = inr (tabbed, mkStore [nameField] [] [], spaced)
  /\ written (events (run quiet defaultFlags "a.go" (Some (inr tabbed)) ∅)) = [spaced]
  /\ spaced ≠ tabbed.
Proof.
  split; [| split; [| split]]; [vm_compute; reflexivity.. | vm_compute; discriminate].
Qed.

(** The default run on [spaced] gets to the printed text. *)
Lemma spaced_reaches :
  @reaches _ (runtime quiet) defaultFlags "a.go" (Some (inr spaced)) (world0 ∅)
    spaced (mkStore [nameField] [] []) spaced 420
    ([] ++ [EvCompile ".*"; EvCompile ".*"; EvOs CallReadIn; EvScan Doctor; EvScan Align;
            EvExecute Doctor; EvExecute Align])
    (final (prepared quiet defaultFlags "a.go" (readIn (inr spaced)) ∅)).
Proof.
  apply (@reaches_intro _ (runtime quiet)); [by repeat split | |]; vm_compute; reflexivity.
Defined.

(** C6 on a source the printer leaves as it is: written back exactly. *)
Lemma output_is_the_printed_text_witness :
  @reaches _ (runtime quiet) defaultFlags "a.go" (Some (inr spaced)) (world0 ∅)
    spaced (mkStore [nameField] [] []) spaced 420
    ([] ++ [EvCompile ".*"; EvCompile ".*"; EvOs CallReadIn; EvScan Doctor; EvScan Align;
            EvExecute Doctor; EvExecute Align])
    (final (prepared quiet defaultFlags "a.go" (readIn (inr spaced)) ∅))
  /\ written (events (run quiet defaultFlags "a.go" (Some (inr spaced)) ∅)) = [spaced].
Proof.
  split; [exact spaced_reaches |].
  destruct (@output_is_the_printed_text _ (runtime quiet) _ _ _ false _ _ _ _ _ _ _
              spaced_reaches) as (_ & _ & H).
  destruct (H eq_refl) as [Hw _]. exact (Hw eq_refl eq_refl eq_refl).
Defined.

(** Against C7 as the specification words it: the subprocess exits with a
    status and two lines of complaint; the run succeeds and writes the
    complaint, cut down to a header, as the diff. *)
Lemma diff_failure_unreported_counterexample :
  (diffResult diffTrouble).2 = Some (exitStatus "2")
  /\ outcome (run diffTrouble diffMode "a.go" (Some (inr sample)) ∅) = inr tt
  /\ written (events (run diffTrouble diffMode "a.go" (Some (inr sample)) ∅))
     = ["--- a.go.orig" +:+ String newline "" +:+ "+++ a.go" +:+ String newline ""].
Proof. split; [| split]; vm_compute; reflexivity. Qed.

(** The run with [-d] on [sample] gets to the printed text. *)
Lemma sample_reaches_diff :
  @reaches _ (runtime diffSilent) diffMode "a.go" (Some (inr sample)) (world0 ∅)
    sample repairedStore sampleRepaired 420
    ([] ++ [EvCompile ".*"; EvCompile ".*"; EvOs CallReadIn; EvScan Doctor; EvScan Align;
            EvExecute Doctor; EvExecute Align])
    (final (prepared diffSilent diffMode "a.go" (readIn (inr sample)) ∅)).
Proof.
  apply (@reaches_intro _ (runtime diffSilent)); [by repeat split | |];
    vm_compute; reflexivity.
Defined.

(** C7 where the subprocess fails and says nothing: the run fails with
    the computing-diff error and writes nothing. *)
Lemma diff_failure_reporting_witness :
  @reaches _ (runtime diffSilent) diffMode "a.go" (Some (inr sample)) (world0 ∅)
    sample repairedStore sampleRepaired 420
    ([] ++ [EvCompile ".*"; EvCompile ".*"; EvOs CallReadIn; EvScan Doctor; EvScan Align;
            EvExecute Doctor; EvExecute Align])
    (final (prepared diffSilent diffMode "a.go" (readIn (inr sample)) ∅))
  /\ sampleRepaired ≠ sample
  /\ diffResult diffSilent = ("", Some (exitStatus "2"))
  /\ outcome (run diffSilent diffMode "a.go" (Some (inr sample)) ∅)
     = inl (ErrComputingDiff (exitStatus "2"))
  /\ written (events (run diffSilent diffMode "a.go" (Some (inr sample)) ∅)) = [].
Proof.
  assert (sampleRepaired ≠ sample) as Hne by (vm_compute; discriminate).
  split; [exact sample_reaches_diff | split; [exact Hne | split; [reflexivity |]]].
  destruct (@diff_failure_reporting _ (runtime diffSilent) diffMode "a.go"
              (Some (inr sample)) false (world0 ∅) sample repairedStore sampleRepaired 420
              _ _ "/tmp/gofmt1" "/tmp/gofmt2" sample_reaches_diff eq_refl Hne
              ltac:(vm_compute; reflexivity) ltac:(vm_compute; reflexivity)
              ltac:(vm_compute; reflexivity)) as (_ & _ & H & _).
  split; [| vm_compute; reflexivity].
  etransitivity; [exact H | vm_compute; reflexivity].
Defined.

(** C8 on the pattern [Na.*e]. *)
Lemma selectInit_inverse_negates_witness :
  @regexp_Compile _ (runtime quiet) "Na.*e" = inr [(Lit "N", false); (Lit "a", false);
                                                    (AnyChar, true); (Lit "e", false)]
  /\ ((exists f g,
         fieldFilter (final (@selectInit _ (runtime quiet) "Na.*e" false (world0 ∅))) = Some f
         /\ fieldFilter (final (@selectInit _ (runtime quiet) "Na.*e" true (world0 ∅))) = Some g
         /\ forall s, g s = negb (f s))
      /\ (exists f g,
           structFieldSelect (final (@structSelectInit _ (runtime quiet) "Na.*e" false (world0 ∅)))
           = Some f
           /\ structFieldSelect (final (@structSelectInit _ (runtime quiet) "Na.*e" true (world0 ∅)))
              = Some g
           /\ forall s, g s = negb (f s))).
Proof.
  assert (@regexp_Compile _ (runtime quiet) "Na.*e"
          = inr [(Lit "N", false); (Lit "a", false); (AnyChar, true); (Lit "e", false)]) as H
    by (vm_compute; reflexivity).
  split; [exact H |].
  exact (@selectInit_inverse_negates _ (runtime quiet) "Na.*e" _ (world0 ∅) (world0 ∅) H).
Defined.

(** C9 with [-P Age] beside a [-p] that does not compile: the run is the
    run with any other [-p], it succeeds, and the patterns compiled are
    the inverse one and the struct pattern. *)
Lemma inverse_pattern_supersedes_witness :
  inversePattern inverseOnly ≠ ""
  /\ (exists e, @regexp_Compile _ (runtime quiet) (pattern inverseOnly) = inl e)
  /\ @processFile _ (runtime quiet) (setPattern ".*" inverseOnly) "a.go" (Some (inr sample))
       false (world0 ∅)
     = @processFile _ (runtime quiet) inverseOnly "a.go" (Some (inr sample)) false (world0 ∅)
  /\ outcome (run quiet inverseOnly "a.go" (Some (inr sample)) ∅) = inr tt
  /\ compiled (events (run quiet inverseOnly "a.go" (Some (inr sample)) ∅)) = ["Age"; ".*"].
Proof.
  assert (inversePattern inverseOnly ≠ "") as Hne by (vm_compute; discriminate).
  split; [exact Hne | split; [eexists; vm_compute; reflexivity | split]].
  - exact (proj2 (proj1 (@inverse_pattern_supersedes _ (runtime quiet) inverseOnly ".*"
                           "a.go" (Some (inr sample)) false (world0 ∅)) Hne)).
  - split; vm_compute; reflexivity.
Defined.



End Examples.

(** ** More of the theorems at work *)

Module MoreExamples.

Import TagGrammar TagDoctor Demo.

(** X1 on the first lines of a unified diff. *)
Lemma replaceTempFilename_keeps_timestamps_witness :
  @replaceTempFilename _ (runtime quiet) diffText "a.go"
  = inr (("--- a.go.orig" +:+ String tab "2017-02-03 19:13:00 -0500") +:+ String newline
         (("+++ a.go" +:+ String tab "2017-02-03 19:13:01 -0500") +:+ String newline
          ("@@ -1 +1 @@" +:+ String newline ""))).
Proof.
  etransitivity;
    [exact (@replaceTempFilename_keeps_timestamps _ (runtime quiet)
              "--- /tmp/gofmt1" "2017-02-03 19:13:00 -0500"
              "+++ /tmp/gofmt2" "2017-02-03 19:13:01 -0500"
              ("@@ -1 +1 @@" +:+ String newline "") "a.go"
              eq_refl eq_refl eq_refl eq_refl eq_refl eq_refl) |].
  vm_compute. reflexivity.
Defined.

(** The weights of [jsonTwice]. *)
Lemma jsonTwice_parses : parseWeights jsonTwice ∅ = inr jsonTwiceWeights.
Proof. vm_compute. reflexivity. Defined.

(** X4 on weights that name [json] twice: the later 3 is the weight. *)
Lemma parseWeights_last_wins_witness :
  parseWeights jsonTwice ∅ = inr jsonTwiceWeights
  /\ jsonTwiceWeights !! "json" = Some 3.
Proof.
  split; [exact jsonTwice_parses |].
  apply (parseWeights_last_wins ["json=1"; "yaml=2"] " json = 3 " [] _ "json" 3
           jsonTwice_parses).
  - vm_compute. discriminate.
  - vm_compute. reflexivity.
  - intros s v' Hs. by apply elem_of_nil in Hs.
Defined.

(** In the runtimes of the scripts below [os.Remove] is never made to fail. *)
Lemma tempFull_removes : @removeNeverFails _ (runtime tempFull).
Proof. intros fs name. reflexivity. Defined.

Lemma quiet_removes : @removeNeverFails _ (runtime quiet).
Proof. intros fs name. reflexivity. Defined.

Lemma diffSilent_removes : @removeNeverFails _ (runtime diffSilent).
Proof. intros fs name. reflexivity. Defined.

(** X5 where the write to the temporary file fails: no file is left. *)
Lemma writeTempFile_all_or_nothing_witness :
  outcome (@writeTempFile _ (runtime tempFull) "" "gofmt" sample (world0 ∅)) = inl noSpace
  /\ fsys (final (@writeTempFile _ (runtime tempFull) "" "gofmt" sample (world0 ∅)))
     = fsys (world0 ∅).
Proof.
  assert (outcome (@writeTempFile _ (runtime tempFull) "" "gofmt" sample (world0 ∅))
          = inl noSpace) as Ho by (vm_compute; reflexivity).
  split; [exact Ho |].
  pose proof (@writeTempFile_all_or_nothing _ (runtime tempFull) "" "gofmt" sample
                (world0 ∅) tempFull_removes) as H.
  rewrite Ho in H. exact H.
Defined.

(** X6 on a run with [-d] whose subprocess fails: the files are as before. *)
Lemma processFile_keeps_files_witness :
  outcome (run diffSilent diffMode "a.go" None (oneFile "a.go" sample))
  = inl (ErrComputingDiff (exitStatus "2"))
  /\ fsys (final (run diffSilent diffMode "a.go" None (oneFile "a.go" sample)))
     = fsys (world0 (oneFile "a.go" sample)).
Proof.
  split; [vm_compute; reflexivity |].
  exact (@processFile_keeps_files _ (runtime diffSilent) diffMode "a.go" None false
           (world0 (oneFile "a.go" sample)) diffSilent_removes eq_refl).
Defined.

(** X7 on a run with [-w] beside a second file: the target is rewritten,
    the other file is as it was. *)
Lemma processFile_frame_witness :
  fsys (final (run quiet writeMode "dir/a.go" None twoFiles)) !! "dir/a.go"
  = Some (mkFile 420 sampleRepaired)
  /\ fsys (final (run quiet writeMode "dir/a.go" None twoFiles)) !! "dir/b.go"
     = fsys (world0 twoFiles) !! "dir/b.go".
Proof.
  split; [vm_compute; reflexivity |].
  apply (@processFile_frame _ (runtime quiet) writeMode "dir/a.go" None false
           (world0 twoFiles) "dir/b.go" quiet_removes).
  - discriminate.
  - vm_compute. discriminate.
Defined.

(** X8 on a source that does not parse. *)
Lemma processFile_fails_before_output_witness :
  outcome (run quiet defaultFlags "a.go" (Some (inr "x")) ∅)
  = inl (ErrExternal "parser" "expected a field")
  /\ Forall (fun ev => isOutput ev = false)
       (events (run quiet defaultFlags "a.go" (Some (inr "x")) ∅))
  /\ fsys (final (run quiet defaultFlags "a.go" (Some (inr "x")) ∅)) = fsys (world0 ∅).
Proof.
  apply (@processFile_fails_before_output _ (runtime quiet) defaultFlags "a.go"
           (Some (inr "x")) false (world0 ∅) 420 (readIn (inr "x")) []).
  - by repeat split.
  - vm_compute. reflexivity.
Defined.

(** A run with a fill rule, on the runtime whose fill pass refuses. *)
Lemma fill_reachesPasses :
  @reachesPasses _ strictRuntime fillMode "a.go" (Some (inr sample)) (world0 ∅)
    sample (mkStore sampleFields [] [])
    [(Doctor, doctor); (Fill, refusing); (Align, idle)] 420
    ([] ++ [EvCompile ".*"; EvCompile ".*"; EvOs CallReadIn])
    (final (@setup _ strictRuntime fillMode "a.go" (readIn (inr sample)) (world0 ∅))).
Proof.
  apply (@Examples.reachesPasses_intro _ strictRuntime); [by repeat split | |];
    vm_compute; reflexivity.
Defined.

(** X9 where the [Scan] of the fill pass fails: the doctor and the fill pass
    have scanned, and that is all. *)
Lemma scan_error_stops_before_execute_witness :
  outcome (@processFile _ strictRuntime fillMode "a.go" (Some (inr sample)) false (world0 ∅))
  = inl (ErrExternal "tagfill" "no such key")
  /\ passEvents (events (@processFile _ strictRuntime fillMode "a.go" (Some (inr sample))
                           false (world0 ∅)))
     = [EvScan Doctor; EvScan Fill].
Proof.
  split; [| vm_compute; reflexivity].
  exact (proj1 (@scan_error_stops_before_execute _ strictRuntime fillMode "a.go"
                  (Some (inr sample)) false (world0 ∅) sample (mkStore sampleFields [] [])
                  [(Doctor, doctor); (Fill, refusing); (Align, idle)] 420 _ _
                  (ErrExternal "tagfill" "no such key") fill_reachesPasses
                  ltac:(vm_compute; reflexivity))).
Defined.

(** The run with [-l] on [sample] gets to the printed text. *)
Lemma sample_reaches_list :
  @reaches _ (runtime quiet) listMode "a.go" (Some (inr sample)) (world0 ∅)
    sample repairedStore sampleRepaired 420
    ([] ++ [EvCompile ".*"; EvCompile ".*"; EvOs CallReadIn; EvScan Doctor; EvScan Align;
            EvExecute Doctor; EvExecute Align])
    (final (prepared quiet listMode "a.go" (readIn (inr sample)) ∅)).
Proof.
  apply (@Examples.reaches_intro _ (runtime quiet)); [by repeat split | |];
    vm_compute; reflexivity.
Defined.

(** X10 on [sample], which the doctor changes. *)
Lemma list_mode_prints_the_name_witness :
  written (events (run quiet listMode "a.go" (Some (inr sample)) ∅))
  = ["a.go" +:+ String newline ""]
  /\ outcome (run quiet listMode "a.go" (Some (inr sample)) ∅) = inr tt.
Proof.
  destruct (@list_mode_prints_the_name _ (runtime quiet) listMode "a.go" (Some (inr sample))
              false (world0 ∅) sample repairedStore sampleRepaired 420 _ _
              sample_reaches_list eq_refl eq_refl eq_refl ltac:(vm_compute; discriminate))
    as (_ & Hw & Ho & _).
  split; [exact Hw | exact Ho].
Defined.

(** X14 on a system without the file. *)
Lemma visitFile_missing_file_witness :
  @visitFile _ (runtime quiet) (flatSystem (inr "")) defaultFlags "a.go"
    (mkInfo "a.go" false) None (initialProcess ∅)
  = ([StepFile "a.go" [EvOs (CallOpen "a.go")]], initialProcess ∅, None).
Proof.
  exact (@visitFile_missing_file _ (runtime quiet) (flatSystem (inr "")) defaultFlags "a.go"
           (mkInfo "a.go" false) (initialProcess ∅) eq_refl eq_refl eq_refl eq_refl).
Defined.

(** X16. *)
Lemma main_refuses_write_on_stdin_witness :
  (@main _ (runtime quiet) (flatSystem (inr sample)) (mkOptions writeMode "") []
     (initialProcess ∅)).2 = 2
  /\ processed (@main _ (runtime quiet) (flatSystem (inr sample)) (mkOptions writeMode "") []
                  (initialProcess ∅)).1 = [].
Proof.
  destruct (@main_refuses_write_on_stdin _ (runtime quiet) (flatSystem (inr sample))
              (mkOptions writeMode "") (initialProcess ∅) eq_refl) as (Hp & Hc & _).
  split; [exact Hc | exact Hp].
Defined.

(** X17 on three paths, the second of which does not exist: the two
    others are processed and the exit code is 2. *)
Lemma main_processes_every_path_witness :
  processed (@main _ (runtime quiet) (flatSystem (inr "")) (mkOptions writeMode "")
               ["dir/a.go"; "gone.go"; "dir/b.go"] (initialProcess twoFiles)).1
  = ["dir/a.go"; "dir/b.go"]
  /\ (@main _ (runtime quiet) (flatSystem (inr "")) (mkOptions writeMode "")
        ["dir/a.go"; "gone.go"; "dir/b.go"] (initialProcess twoFiles)).2 = 2.
Proof.
  split; [vm_compute; reflexivity |].
  destruct (@main_processes_every_path _ (runtime quiet) (flatSystem (inr ""))
              (mkOptions writeMode "") ["dir/a.go"; "gone.go"; "dir/b.go"] twoFiles
              eq_refl ltac:(discriminate)) as (_ & _ & [H | H] & _).
  - intros fs path info _. simpl. destruct (fs !! path); [| done]. by intros [= <-].
  - exfalso. revert H. vm_compute. discriminate.
  - exact H.
Defined.

End MoreExamples.
